(** * AskCorp: the legal-structure parser of [src/model_law_processor.py]

    A shallow embedding of [ModelLawProcessor]: text normalisation
    ([normalize_text]), the marker tokenizer ([TOKEN_PATTERN] with
    [re.finditer]), [classify_level], the stack-based tree construction of
    [parse_legal_structure] and [collapse_table_of_contents], followed by the
    properties of the specification that hold on this code and the inputs on
    which the others fail.

    Conventions.
    - A Python [str] is a list of characters.  Characters are the code points
      U+0000..U+00FF, carried by [ascii]; the character classes [\s], [\d] and
      [\w] are those of Python's [re] on [str] patterns restricted to that
      range, and [str.strip] trims the same set as [\s].
    - Python integers are [Z]; lengths and offsets, which are never negative,
      are [nat].
    - A node is a Python [dict] with keys [marker], [text] and [children].
      Nodes are mutable and shared between [root], [stack] and the [children]
      lists of their parents, so the builder works on a heap of cells
      addressed by handles; the tree a caller sees is read back from it. *)

From Stdlib Require Import String Ascii List Arith ZArith Lia Bool.
Import ListNotations.

Set Implicit Arguments.
Set Warnings "-register-all".

(* ================================================================== *)
(** * Characters and strings *)
(* ================================================================== *)

Definition str := list ascii.

(** String literals of the source, as character lists. *)
Definition L (s : string) : str := list_ascii_of_string s.

Definition code (c : ascii) : N := N_of_ascii c.

Definition in_range (lo hi : N) (c : ascii) : bool :=
  ((lo <=? code c) && (code c <=? hi))%N.

(** [\s] and the characters removed by [str.strip()]: Py_UNICODE_ISSPACE. *)
Definition is_space (c : ascii) : bool :=
  in_range 9 13 c || in_range 28 32 c || (code c =? 133)%N || (code c =? 160)%N.

(** [\d]: the decimal digits. *)
Definition is_digit (c : ascii) : bool := in_range 48 57 c.

(** [[A-Z]] and [[a-z]]. *)
Definition is_upper (c : ascii) : bool := in_range 65 90 c.
Definition is_lower (c : ascii) : bool := in_range 97 122 c.

(** [\w]: alphanumeric code points and the underscore. *)
Definition is_word (c : ascii) : bool :=
  is_digit c || is_upper c || is_lower c || (code c =? 95)%N
  || (code c =? 170)%N || (code c =? 178)%N || (code c =? 179)%N
  || (code c =? 181)%N || (code c =? 185)%N || (code c =? 186)%N
  || in_range 188 190 c || in_range 192 214 c || in_range 216 246 c
  || in_range 248 255 c.

(** [[ \t]]. *)
Definition is_blank (c : ascii) : bool :=
  (code c =? 32)%N || (code c =? 9)%N.

Definition newline : ascii := "010"%char.

Fixpoint lstrip (s : str) : str :=
  match s with
  | c :: s' => if is_space c then lstrip s' else s
  | [] => []
  end.

Definition rstrip (s : str) : str := rev (lstrip (rev s)).

(** [s.strip()] *)
Definition strip (s : str) : str := rstrip (lstrip s).

(** [s.startswith(p)] *)
Fixpoint startswith (p s : str) : bool :=
  match p, s with
  | [], _ => true
  | a :: p', b :: s' => Ascii.eqb a b && startswith p' s'
  | _ :: _, [] => false
  end.

(** [s.split(sep)] for a one-character separator: never the empty list. *)
Fixpoint split (sep : ascii) (s : str) : list str :=
  match s with
  | [] => [[]]
  | c :: s' =>
      if Ascii.eqb c sep then [] :: split sep s'
      else match split sep s' with
           | l :: ls => (c :: l) :: ls
           | [] => [[c]]
           end
  end.

(** [sep.join(xs)] *)
Fixpoint join (sep : str) (xs : list str) : str :=
  match xs with
  | [] => []
  | [x] => x
  | x :: xs' => x ++ sep ++ join sep xs'
  end.

(** [s[a:b]] for [0 <= a], [0 <= b]. *)
Definition slice (a b : nat) (s : str) : str := firstn (b - a) (skipn a s).

(* ================================================================== *)
(** * Regular expressions: the fragment of [re] the program uses *)
(* ================================================================== *)

(** Greedy repetition occurs in the source only over one-character classes
    ([\s*], [\s+], [\d+], [\w+], [[ \t]+]). *)
Inductive re : Type :=
| Eps
| Chr (c : ascii)
| Cls (p : ascii -> bool)
| Star (p : ascii -> bool)
| Plus (p : ascii -> bool)
| Cat (r1 r2 : re)
| Alt (r1 r2 : re)
| Bol                      (* [^] without flags: start of the string *)
| BolM                     (* [^] under [(?m)]: start of a line *)
| Ahead (r : re)           (* [(?=r)] *)
| Grp (i : nat) (r : re).  (* the [i]-th capturing group *)

Declare Scope re_scope.
Delimit Scope re_scope with re.
Bind Scope re_scope with re.
Infix "@@" := Cat (at level 40, left associativity) : re_scope.
Infix "|||" := Alt (at level 50, left associativity) : re_scope.

(** A literal run of characters. *)
Fixpoint lit (s : str) : re :=
  match s with
  | [] => Eps
  | c :: s' => Cat (Chr c) (lit s')
  end.

(** Captured groups, most recent first. *)
Definition caps := list (nat * str).

Fixpoint group (i : nat) (cs : caps) : str :=
  match cs with
  | [] => []
  | (j, g) :: cs' => if Nat.eqb i j then g else group i cs'
  end.

(** The backtracking matcher, in continuation-passing style.  [prev] is the
    character before the current position ([None] at offset 0), [s] the rest
    of the subject, [k] what remains to be matched.  Alternatives are tried
    left to right and repetitions longest first, as [re] does. *)
Fixpoint star {A : Type} (p : ascii -> bool) (prev : option ascii) (s : str)
    (cs : caps) (k : option ascii -> str -> caps -> option A) : option A :=
  match s with
  | c :: s' =>
      if p c then
        match star p (Some c) s' cs k with
        | Some x => Some x
        | None => k prev s cs
        end
      else k prev s cs
  | [] => k prev s cs
  end.

Fixpoint rmatch (r : re) {A : Type} (prev : option ascii) (s : str)
    (cs : caps) (k : option ascii -> str -> caps -> option A) : option A :=
  match r with
  | Eps => k prev s cs
  | Chr c =>
      match s with
      | x :: s' => if Ascii.eqb x c then k (Some x) s' cs else None
      | [] => None
      end
  | Cls p =>
      match s with
      | x :: s' => if p x then k (Some x) s' cs else None
      | [] => None
      end
  | Star p => star p prev s cs k
  | Plus p =>
      match s with
      | x :: s' => if p x then star p (Some x) s' cs k else None
      | [] => None
      end
  | Cat r1 r2 =>
      rmatch r1 prev s cs (fun prev' s' cs' => rmatch r2 prev' s' cs' k)
  | Alt r1 r2 =>
      match rmatch r1 prev s cs k with
      | Some x => Some x
      | None => rmatch r2 prev s cs k
      end
  | Bol =>
      match prev with
      | None => k prev s cs
      | Some _ => None
      end
  | BolM =>
      match prev with
      | None => k prev s cs
      | Some c => if Ascii.eqb c newline then k prev s cs else None
      end
  | Ahead r1 =>
      match rmatch r1 prev s cs (fun _ _ cs' => Some cs') with
      | Some cs' => k prev s cs'
      | None => None
      end
  | Grp i r1 =>
      rmatch r1 prev s cs
        (fun prev' s' cs' =>
           k prev' s' ((i, firstn (length s - length s') s) :: cs'))
  end.

(** A match of the pattern at the current position: the number of characters
    it consumes and its groups. *)
Definition match_here (r : re) (prev : option ascii) (s : str)
  : option (nat * caps) :=
  rmatch r prev s [] (fun _ s' cs => Some (length s - length s', cs)).

(** [re.match(r, s)] as a truth value. *)
Definition re_match (r : re) (s : str) : bool :=
  match match_here r None s with Some _ => true | None => false end.

(** [re.fullmatch(r, s)] as a truth value. *)
Definition re_fullmatch (r : re) (s : str) : bool :=
  match rmatch r None s []
          (fun _ s' _ => match s' with [] => Some tt | _ :: _ => None end)
  with Some _ => true | None => false end.

(** A match object: [m.start()], [m.group()] and the numbered groups. *)
Record rmatch_obj : Type := MkMatch {
  m_start : nat;
  m_group : str;
  m_caps : caps
}.

(** [re.finditer]: leftmost matches, left to right, never overlapping.  [off]
    is the offset of [s] in the subject and [skip] the number of characters
    of [s] that still belong to the previous match.  After a match the search
    resumes where it ended.  (None of the patterns of this program matches the
    empty string; after an empty match the search moves one character on.) *)
Fixpoint finditer_from (r : re) (prev : option ascii) (s : str)
    (off skip : nat) : list rmatch_obj :=
  match skip with
  | S skip' =>
      match s with
      | c :: s' => finditer_from r (Some c) s' (S off) skip'
      | [] => []
      end
  | O =>
      match match_here r prev s with
      | Some (n, cs) =>
          MkMatch off (firstn n s) cs ::
          match s with
          | c :: s' => finditer_from r (Some c) s' (S off) (n - 1)
          | [] => []
          end
      | None =>
          match s with
          | c :: s' => finditer_from r (Some c) s' (S off) 0
          | [] => []
          end
      end
  end.

Definition finditer (r : re) (text : str) : list rmatch_obj :=
  finditer_from r None text 0 0.

(** [re.sub(r, repl, text)]: every match is replaced by [repl] of its groups,
    the text between matches is copied. *)
Fixpoint sub_from (r : re) (repl : caps -> str) (prev : option ascii)
    (s : str) (skip : nat) : str :=
  match skip with
  | S skip' =>
      match s with
      | c :: s' => sub_from r repl (Some c) s' skip'
      | [] => []
      end
  | O =>
      match match_here r prev s with
      | Some (n, cs) =>
          repl cs ++
          match s with
          | c :: s' =>
              match n with
              | O => c :: sub_from r repl (Some c) s' 0
              | S n' => sub_from r repl (Some c) s' n'
              end
          | [] => []
          end
      | None =>
          match s with
          | c :: s' => c :: sub_from r repl (Some c) s' 0
          | [] => []
          end
      end
  end.

Definition re_sub (r : re) (repl : caps -> str) (text : str) : str :=
  sub_from r repl None text 0.

(* ================================================================== *)
(** * The patterns of [ModelLawProcessor] *)
(* ================================================================== *)

Local Open Scope re_scope.
Local Open Scope char_scope.

(** [self.TOKEN_PATTERN]:
    [(?m)^\s*(Section\s+\d+\.)|^\s*([A-Z]\.)|^\s*(\(\d+\))\s+(?=[A-Z])|^\s*(\([a-z]\))\s+(?=[A-Z])] *)
Definition TOKEN_PATTERN : re :=
      BolM @@ Star is_space
        @@ Grp 1 (lit (L "Section") @@ Plus is_space @@ Plus is_digit @@ Chr ".")
  ||| (BolM @@ Star is_space @@ Grp 2 (Cls is_upper @@ Chr ".")
  ||| (BolM @@ Star is_space @@ Grp 3 (Chr "(" @@ Plus is_digit @@ Chr ")")
         @@ Plus is_space @@ Ahead (Cls is_upper)
  ||| (BolM @@ Star is_space @@ Grp 4 (Chr "(" @@ Cls is_lower @@ Chr ")")
         @@ Plus is_space @@ Ahead (Cls is_upper)))).

(** [(\w+)-\n(\w+)] *)
Definition HYPHEN_BREAK : re :=
  Grp 1 (Plus is_word) @@ Chr "-" @@ Chr newline @@ Grp 2 (Plus is_word).

(** [^(Section\s+\d+\.|[A-Z]\.|\(\d+\)|\([a-z]\))] *)
Definition LINE_MARKER : re :=
  Bol @@ Grp 1 (    lit (L "Section") @@ Plus is_space @@ Plus is_digit @@ Chr "."
                ||| (Cls is_upper @@ Chr "."
                ||| (Chr "(" @@ Plus is_digit @@ Chr ")"
                ||| (Chr "(" @@ Cls is_lower @@ Chr ")")))).

(** [[ \t]+] *)
Definition BLANKS : re := Plus is_blank.

(** [[A-Z]\.], [\(\d+\)] and [\([a-z]\)] of [classify_level]. *)
Definition UPPER_DOT : re := Cls is_upper @@ Chr ".".
Definition PAREN_DIGITS : re := Chr "(" @@ Plus is_digit @@ Chr ")".
Definition PAREN_LOWER : re := Chr "(" @@ Cls is_lower @@ Chr ")".

Local Close Scope char_scope.
Local Close Scope re_scope.

(* ================================================================== *)
(** * [normalize_text] *)
(* ================================================================== *)

(** [re.sub(r"(\w+)-\n(\w+)", r"\1\2", text)] *)
Definition dehyphenate (text : str) : str :=
  re_sub HYPHEN_BREAK (fun cs => group 1 cs ++ group 2 cs) text.

(** [rebuilt[-1] += x] *)
Definition extend_last (rebuilt : list str) (x : str) : list str :=
  removelast rebuilt ++ [last rebuilt [] ++ x].

(** One turn of [for line in lines]. *)
Definition rebuild_line (rebuilt : list str) (line : str) : list str :=
  let stripped := strip line in
  match stripped with
  | [] => rebuilt
  | _ :: _ =>
      if re_match LINE_MARKER stripped then rebuilt ++ [newline :: stripped]
      else match rebuilt with
           | _ :: _ => extend_last rebuilt (L " " ++ stripped)
           | [] => rebuilt ++ [stripped]
           end
  end.

Definition normalize_text (text : str) : str :=
  let text := dehyphenate text in
  let lines := split newline text in
  let rebuilt := fold_left rebuild_line lines [] in
  let text := join [newline] rebuilt in
  let text := re_sub BLANKS (fun _ => L " ") text in
  strip text.

(* ================================================================== *)
(** * [classify_level] *)
(* ================================================================== *)

(** What a call yields: a value, or an exception that propagates. *)
Inductive exn : Type := IndexError.

Inductive outcome (A : Type) : Type :=
| Returned (a : A)
| Raised (e : exn).

Arguments Returned {A} a.
Arguments Raised {A} e.

Definition bind {A B : Type} (o : outcome A) (f : A -> outcome B) : outcome B :=
  match o with
  | Returned a => f a
  | Raised e => Raised e
  end.

Notation "x <- o ;; f" := (bind o (fun x => f))
  (at level 61, o at next level, right associativity).

Definition classify_level (token : str) : outcome Z :=
  let token := strip token in
  if startswith (L "Section") token then Returned 1%Z
  else if re_fullmatch UPPER_DOT token then Returned 2%Z
  else if re_fullmatch PAREN_DIGITS token then Returned 3%Z
  else if re_fullmatch PAREN_LOWER token then Returned 4%Z
  else Returned 0%Z.

(* ================================================================== *)
(** * [parse_legal_structure] *)
(* ================================================================== *)

(** A handle is the address of a node: the index of its cell in the heap. *)
Definition handle := nat.

(** The [dict] behind a node; [children] holds references. *)
Record cell : Type := MkCell {
  c_marker : str;
  c_text : str;
  c_children : list handle
}.

(** The locals of the loop.  [stack] is kept top first: [stack[-1]] is its
    head, [stack.append] conses and [stack.pop()] drops the head. *)
Record builder : Type := MkBuilder {
  heap : list cell;
  root : list handle;
  stack : list handle
}.

Definition empty_builder : builder := MkBuilder [] [] [].

(** [while len(stack) >= level: stack.pop()]; popping the empty list raises
    [IndexError]. *)
Fixpoint pop_while (stack : list handle) (level : Z) : outcome (list handle) :=
  if (Z.of_nat (length stack) >=? level)%Z then
    match stack with
    | _ :: rest => pop_while rest level
    | [] => Raised IndexError
    end
  else Returned stack.

(** [heap[h]["children"].append(child)] *)
Fixpoint append_child (h : handle) (child : handle) (hp : list cell) : list cell :=
  match hp, h with
  | [], _ => []
  | c :: hp', O => MkCell (c_marker c) (c_text c) (c_children c ++ [child]) :: hp'
  | c :: hp', S h' => c :: append_child h' child hp'
  end.

(** The body of [for i, match in enumerate(matches)]; [end_] is
    [matches[i + 1].start()] or [len(text)]. *)
Definition add_marker (text : str) (st : builder) (m : rmatch_obj) (end_ : nat)
  : outcome builder :=
  let token := strip (m_group m) in
  let start := m_start m in
  let content := strip (slice start end_ text) in
  level <- classify_level token ;;
  let node := length (heap st) in
  let heap1 := heap st ++ [MkCell token content []] in
  stack1 <- pop_while (stack st) level ;;
  match stack1 with
  | top :: _ =>
      Returned (MkBuilder (append_child top node heap1) (root st) (node :: stack1))
  | [] =>
      Returned (MkBuilder heap1 (root st ++ [node]) (node :: stack1))
  end.

Fixpoint build (text : str) (matches : list rmatch_obj) (st : builder)
  : outcome builder :=
  match matches with
  | [] => Returned st
  | m :: rest =>
      let end_ := match rest with
                  | m' :: _ => m_start m'
                  | [] => length text
                  end in
      st' <- add_marker text st m end_ ;;
      build text rest st'
  end.

(** A node as the caller reads it: the nested dictionaries. *)
Inductive node : Type :=
| Node (marker : str) (text : str) (children : list node).

Definition marker (n : node) : str := let (m, _, _) := n in m.
Definition text (n : node) : str := let (_, t, _) := n in t.
Definition children (n : node) : list node := let (_, _, cs) := n in cs.

(** Following the references from a handle; [fuel] bounds the depth. *)
Fixpoint read_node (fuel : nat) (hp : list cell) (h : handle) : node :=
  match fuel with
  | O => Node [] [] []
  | S fuel' =>
      match nth_error hp h with
      | Some c =>
          Node (c_marker c) (c_text c) (map (read_node fuel' hp) (c_children c))
      | None => Node [] [] []
      end
  end.

Definition read_forest (st : builder) : list node :=
  map (read_node (length (heap st)) (heap st)) (root st).

Definition run_builder (text : str) : outcome builder :=
  build text (finditer TOKEN_PATTERN text) empty_builder.

Definition parse_legal_structure (text : str) : outcome (list node) :=
  st <- run_builder text ;;
  Returned (read_forest st).

(* ================================================================== *)
(** * [collapse_table_of_contents] *)
(* ================================================================== *)

Definition is_flat_section (n : node) : bool :=
  startswith (L "Section") (marker n)
  && Nat.eqb (length (children n)) 0
  && Nat.ltb (length (text n)) 200.

(** The scanning loop from index [i] on: the entries collected and the final
    [body_start_index], which is assigned only when the loop breaks. *)
Fixpoint scan_toc (nodes : list node) (i : nat) : list node * nat :=
  match nodes with
  | [] => ([], 0)
  | n :: rest =>
      if is_flat_section n then
        let (entries, b) := scan_toc rest (S i) in (n :: entries, b)
      else ([], i)
  end.

Definition toc_node (entries : list node) : node :=
  Node (L "TOC") (L "Table of Contents") entries.

Definition collapse_table_of_contents (nodes : list node) : list node :=
  let (toc_entries, body_start_index) := scan_toc nodes 0 in
  match toc_entries with
  | _ :: _ => toc_node toc_entries :: skipn body_start_index nodes
  | [] => nodes
  end.

(** [process] without its files: normalise, parse, collapse. *)
Definition pipeline (raw_text : str) : outcome (list node) :=
  let clean_text := normalize_text raw_text in
  structure <- parse_legal_structure clean_text ;;
  Returned (collapse_table_of_contents structure).

(** What follows the program: first the notions in which the properties are
    stated and proved (what a match looks like, the marker shapes, the tree
    of handles behind the heap, the inputs of the scenarios), then the lemmas
    and the theorems. *)

Local Open Scope char_scope.

(* ================================================================== *)
(** * The matcher: what a successful match looks like *)
(* ================================================================== *)

(** The character before the position reached after reading [u]. *)
Definition lastp (prev : option ascii) (u : str) : option ascii :=
  match rev u with
  | c :: _ => Some c
  | [] => prev
  end.

(** [matches r prev u rest]: the word [u] is a match of [r] when the character
    before it is [prev] and the subject continues with [rest]. *)
Fixpoint matches (r : re) (prev : option ascii) (u rest : str) : Prop :=
  match r with
  | Eps => u = []
  | Chr c => u = [c]
  | Cls p => exists c, u = [c] /\ p c = true
  | Star p => forallb p u = true
  | Plus p => u <> [] /\ forallb p u = true
  | Cat r1 r2 =>
      exists u1 u2, u = u1 ++ u2
                    /\ matches r1 prev u1 (u2 ++ rest)
                    /\ matches r2 (lastp prev u1) u2 rest
  | Alt r1 r2 => matches r1 prev u rest \/ matches r2 prev u rest
  | Bol => u = [] /\ prev = None
  | BolM => u = [] /\ (prev = None \/ prev = Some newline)
  | Ahead r1 => u = [] /\ exists v w, rest = v ++ w /\ matches r1 prev v w
  | Grp _ r1 => matches r1 prev u rest
  end.

(* ================================================================== *)
(** * [finditer]: where the matches lie *)
(* ================================================================== *)

(** The matches lie in the text from left to right without overlapping:
    each one starts at or after [lo], is the slice of the text at its offset,
    and the next one starts at or after its end. *)
Inductive tiled (text : str) : nat -> list rmatch_obj -> Prop :=
| tiled_nil lo : tiled text lo []
| tiled_cons lo m ms :
    lo <= m_start m ->
    skipn (m_start m) text = m_group m ++ skipn (m_start m + length (m_group m)) text ->
    m_start m + length (m_group m) <= length text ->
    tiled text (m_start m + length (m_group m)) ms ->
    tiled text lo (m :: ms).

(* ================================================================== *)
(** * The four marker shapes *)
(* ================================================================== *)

(** The shapes [classify_level] tells apart, on a trimmed token. *)
Definition shape_section (t : str) : bool := startswith (L "Section") t.

Definition shape_upper_dot (t : str) : bool :=
  match t with
  | [c; d] => is_upper c && Ascii.eqb d "."
  | _ => false
  end.

Definition shape_paren_digits (t : str) : bool :=
  match t with
  | a :: rest =>
      Ascii.eqb a "("
      && match rev rest with
         | z :: sd =>
             Ascii.eqb z ")" && negb (Nat.eqb (length sd) 0)
             && forallb is_digit sd
         | [] => false
         end
  | [] => false
  end.

Definition shape_paren_lower (t : str) : bool :=
  match t with
  | [a; c; z] => Ascii.eqb a "(" && is_lower c && Ascii.eqb z ")"
  | _ => false
  end.

Definition known_shape (token : str) : bool :=
  let t := strip token in
  shape_section t || shape_upper_dot t || shape_paren_digits t
  || shape_paren_lower t.

(* ================================================================== *)
(** * What the tokenizer matches *)
(* ================================================================== *)

Ltac app_norm :=
  simpl; rewrite <- ?app_assoc; simpl; rewrite <- ?app_assoc; simpl;
  rewrite ?app_nil_r; reflexivity.

Ltac ascii_cases c :=
  destruct c as [[] [] [] [] [] [] [] []]; vm_compute; intros;
  try reflexivity; try discriminate.

(** The body of a marker, between the blanks the pattern reads around it. *)
Inductive marker_body : str -> Z -> Prop :=
| body_section sp ds :
    sp <> [] -> forallb is_space sp = true ->
    ds <> [] -> forallb is_digit ds = true ->
    marker_body (L "Section" ++ sp ++ ds ++ ["."]) 1
| body_upper c :
    is_upper c = true -> marker_body [c; "."] 2
| body_digits ds :
    ds <> [] -> forallb is_digit ds = true ->
    marker_body ("(" :: ds ++ [")"]) 3
| body_lower c :
    is_lower c = true -> marker_body ["("; c; ")"] 4.

(* ================================================================== *)
(** * The builder: the tree behind the heap *)
(* ================================================================== *)

(** The tree of handles that a heap describes.  The proofs follow the loop
    with a zipper: the roots already closed and, for every node still on the
    stack, the subtrees of its children that are already closed. *)
Inductive shape : Type :=
| Sh (h : handle) (kids : list shape).

Definition sh_handle (s : shape) : handle := let (h, _) := s in h.

Fixpoint pre_shape (s : shape) : list handle :=
  match s with
  | Sh h kids => h :: flat_map pre_shape kids
  end.

Definition pre_forest (F : list shape) : list handle := flat_map pre_shape F.

(** The cell of every node of the shape lists exactly its children. *)
Inductive realised (hp : list cell) : shape -> Prop :=
| realised_node h kids c :
    nth_error hp h = Some c ->
    c_children c = map sh_handle kids ->
    Forall (realised hp) kids ->
    realised hp (Sh h kids).

Record zipper : Type := MkZipper {
  z_done : list shape;
  z_open : list (handle * list shape)
}.

Fixpoint pre_open (open : list (handle * list shape)) : list handle :=
  match open with
  | [] => []
  | (h, kids) :: rest => pre_open rest ++ h :: pre_forest kids
  end.

Definition pre_zipper (z : zipper) : list handle :=
  pre_forest (z_done z) ++ pre_open (z_open z).

(** The cells of the open nodes, top first: each lists its closed children
    and then the open child [tail]; the bottom one is the last root. *)
Fixpoint links (hp : list cell) (rt : list handle) (done : list shape)
    (tail : list handle) (open : list (handle * list shape)) : Prop :=
  match open with
  | [] => rt = map sh_handle done ++ tail
  | (h, kids) :: rest =>
      (exists c, nth_error hp h = Some c
                 /\ c_children c = map sh_handle kids ++ tail)
      /\ links hp rt done [h] rest
  end.

Record inv (hp : list cell) (rt : list handle) (z : zipper) : Prop := MkInv {
  inv_done : Forall (realised hp) (z_done z);
  inv_open : Forall (fun f => Forall (realised hp) (snd f)) (z_open z);
  inv_links : links hp rt (z_done z) [] (z_open z);
  inv_pre : pre_zipper z = seq 0 (length hp)
}.

(** Closing the top of the stack. *)
Definition zpop (z : zipper) : zipper :=
  match z_open z with
  | [] => z
  | (h, kids) :: rest =>
      match rest with
      | [] => MkZipper (z_done z ++ [Sh h kids]) []
      | (h', kids') :: rest' =>
          MkZipper (z_done z) ((h', kids' ++ [Sh h kids]) :: rest')
      end
  end.

Definition zpush (n : handle) (z : zipper) : zipper :=
  MkZipper (z_done z) ((n, []) :: z_open z).

(** ** One turn of the loop *)

Definition label (c : cell) : str * str := (c_marker c, c_text c).

(** What the loop keeps between two markers. *)
Definition sinv (st : builder) : Prop :=
  exists z, inv (heap st) (root st) z /\ stack st = map fst (z_open z).

(** The marker and the text of the node of every match. *)
Fixpoint spans (text : str) (matches : list rmatch_obj) : list (str * str) :=
  match matches with
  | [] => []
  | m :: rest =>
      let end_ := match rest with
                  | m' :: _ => m_start m'
                  | [] => length text
                  end in
      (strip (m_group m), strip (slice (m_start m) end_ text))
      :: spans text rest
  end.

(** ** Reading the tree back *)

(** The nodes of a tree in pre-order: the order of a depth-first walk that
    visits children left to right. *)
Fixpoint nodes_of (n : node) : list node :=
  match n with
  | Node _ _ cs => n :: flat_map nodes_of cs
  end.

Definition all_nodes (forest : list node) : list node :=
  flat_map nodes_of forest.

Definition node_label (n : node) : str * str := (marker n, text n).

Fixpoint erase (hp : list cell) (s : shape) : node :=
  match s with
  | Sh h kids =>
      match nth_error hp h with
      | Some c => Node (c_marker c) (c_text c) (map (erase hp) kids)
      | None => Node [] [] []
      end
  end.

Definition label_at (hp : list cell) (h : handle) : str * str :=
  match nth_error hp h with
  | Some c => label c
  | None => ([], [])
  end.

(* ================================================================== *)
(** * Levels, nesting and the table of contents *)
(* ================================================================== *)

Fixpoint str_eqb (a b : str) : bool :=
  match a, b with
  | [], [] => true
  | x :: a', y :: b' => Ascii.eqb x y && str_eqb a' b'
  | _, _ => false
  end.

(** The level of a node is the level of its marker; nodes store no level. *)
Definition level_of (mk : str) : Z :=
  match classify_level mk with
  | Returned l => l
  | Raised _ => 0%Z
  end.

Definition is_toc (n : node) : bool := str_eqb (marker n) (L "TOC").

(** The nesting invariant of the specification, as a check on a tree: below
    every node other than the table of contents, each direct child has a
    strictly greater level. *)
Fixpoint nested_ok (n : node) : bool :=
  match n with
  | Node mk _ cs =>
      (str_eqb mk (L "TOC")
       || forallb (fun c => (level_of mk <? level_of (marker c))%Z) cs)
      && forallb nested_ok cs
  end.

(** The levels of the nodes on the stack, top first. *)
Definition stack_levels (st : builder) : list Z :=
  map (fun h => match nth_error (heap st) h with
                | Some c => level_of (c_marker c)
                | None => 0%Z
                end) (stack st).

(** Modelled on the words of the specification, for comparison with
    [pop_while]: "pop the open-ancestor stack while its top entry's level
    is [>= L]".  [levels] gives the level of a handle. *)
Fixpoint pop_by_level (levels : handle -> Z) (stack : list handle) (level : Z)
  : list handle :=
  match stack with
  | top :: rest =>
      if (levels top >=? level)%Z then pop_by_level levels rest level
      else stack
  | [] => []
  end.

(** A section with numbered paragraphs and no lettered subsection. *)
Definition skipped_level_text : str :=
  L "Section 1. Scope" ++ [newline] ++ L "(1) Alpha" ++ [newline]
  ++ L "(2) Beta".

Definition skipped_level_tree : list node :=
  [Node (L "Section 1.") (L "Section 1. Scope")
     [Node (L "(1)") (L "(1) Alpha")
        [Node (L "(2)") (L "(2) Beta") []]]].

(** Scenario A of the specification. *)
Definition scenario_A : str :=
  L "Section 1. Short summary." ++ [newline]
  ++ L "Section 2. Another short one." ++ [newline]
  ++ L "Section 3. " ++ repeat "x"%char 250
  ++ L " (1) First point (a) Sub point.".

Definition scenario_A_tree : list node :=
  [Node (L "TOC") (L "Table of Contents")
     [Node (L "Section 1.") (L "Section 1. Short summary.") [];
      Node (L "Section 2.") (L "Section 2. Another short one.") []];
   Node (L "Section 3.")
        (L "Section 3. " ++ repeat "x"%char 250
         ++ L " (1) First point (a) Sub point.")
        []].

(** What the specification announces for Scenario A. *)
Definition scenario_A_announced (out : list node) : Prop :=
  exists toc s3,
    out = [toc; s3]
    /\ marker toc = L "TOC"
    /\ map marker (children toc) = [L "Section 1."; L "Section 2."]
    /\ marker s3 = L "Section 3."
    /\ exists p1 pa,
         In p1 (children s3) /\ marker p1 = L "(1)" /\ level_of (marker p1) = 3%Z
         /\ In pa (children p1) /\ marker pa = L "(a)"
         /\ level_of (marker pa) = 4%Z.

(** ** The table of contents *)

(** A text that is only a list of section titles. *)
Definition titles_only_text : str :=
  L "Section 1. Definitions" ++ [newline] ++ L "Section 2. Scope".

Definition titles_only_nodes : list node :=
  [Node (L "Section 1.") (L "Section 1. Definitions") [];
   Node (L "Section 2.") (L "Section 2. Scope") []].

(** ** Markers and spans *)

(** The spans of the matches before trimming: [text[start:end]]. *)
Fixpoint raw_spans (txt : str) (matches : list rmatch_obj) : list str :=
  match matches with
  | [] => []
  | m :: rest =>
      let end_ := match rest with
                  | m' :: _ => m_start m'
                  | [] => length txt
                  end in
      slice (m_start m) end_ txt :: raw_spans txt rest
  end.

(** The partition property as the specification states it: the texts of the
    nodes, concatenated in document order, are the text from the first
    marker on. *)
Definition partition_claim (txt : str) : Prop :=
  forall m ms forest,
    finditer TOKEN_PATTERN txt = m :: ms ->
    parse_legal_structure txt = Returned forest ->
    concat (map text (all_nodes forest)) = skipn (m_start m) txt.

Definition two_markers_text : str :=
  L "A. x" ++ [newline] ++ L "B. y".

(** ** Markers stand at line starts *)

(** The matches of the tokenizer whose start offset lies in [[a, b)]. *)
Definition markers_in (txt : str) (a b : nat) : list rmatch_obj :=
  filter (fun m => (a <=? m_start m)%nat && (m_start m <? b)%nat)
         (finditer TOKEN_PATTERN txt).

Definition no_newline (line : str) : bool :=
  forallb (fun c => negb (Ascii.eqb c newline)) line.

(** The line of Scenario C. *)
Definition scenario_C_line : str :=
  L "See subsection (1) of Section 4 for details.".

(** A text around it: a marker line before, a marker line after. *)
Definition scenario_C_before : str := L "Section 1. Scope" ++ [newline].
Definition scenario_C_after : str := [newline] ++ L "(2) Next".

(** ** De-hyphenation *)

(** A place where [HYPHEN_BREAK] can match: a word character, a hyphen, a
    newline and a word character in a row. *)
Fixpoint has_break (s : str) : bool :=
  match s with
  | c :: s' =>
      (is_word c
       && match s' with
          | x :: y :: d :: _ => Ascii.eqb x "-" && Ascii.eqb y newline && is_word d
          | _ => false
          end)
      || has_break s'
  | [] => false
  end.


(** ** Depths *)

(** The depth at which the node of a marker of level [l] is attached when the
    stack holds [d] nodes: the loop leaves at most [l - 1] of them, and the
    new node goes on top. *)
Definition next_depth (d : nat) (l : Z) : nat :=
  S (Nat.min d (Z.to_nat (l - 1))).

(** The depth of the stack after each marker, from a stack of [d] nodes. *)
Fixpoint stack_depths (d : nat) (levels : list Z) : list nat :=
  match levels with
  | [] => []
  | l :: ls => next_depth d l :: stack_depths (next_depth d l) ls
  end.

(** The level of the token of a match. *)
Definition match_level (m : rmatch_obj) : Z := level_of (strip (m_group m)).

(** The nodes of a tree in pre-order, each with its depth; roots have
    depth 1. *)
Fixpoint walk (d : nat) (n : node) : list (nat * node) :=
  match n with
  | Node _ _ cs => (d, n) :: flat_map (walk (S d)) cs
  end.

Definition walk_forest (forest : list node) : list (nat * node) :=
  flat_map (walk 1) forest.

(** [ds] gives the depth of every handle; the shape sits at depth [d]. *)
Inductive at_depth (ds : list nat) : nat -> shape -> Prop :=
| at_depth_node d h kids :
    nth_error ds h = Some d ->
    Forall (at_depth ds (S d)) kids ->
    at_depth ds d (Sh h kids).

(** The open nodes, top first, sit at the depths of their stack positions. *)
Fixpoint frames_depth (ds : list nat) (open : list (handle * list shape))
  : Prop :=
  match open with
  | [] => True
  | (h, kids) :: rest =>
      nth_error ds h = Some (S (length rest))
      /\ Forall (at_depth ds (S (S (length rest)))) kids
      /\ frames_depth ds rest
  end.

Definition zdepth (ds : list nat) (z : zipper) : Prop :=
  Forall (at_depth ds 1) (z_done z) /\ frames_depth ds (z_open z).

(** The state between two markers, with the depth of every node. *)
Definition dinv (st : builder) (ds : list nat) : Prop :=
  exists z, inv (heap st) (root st) z /\ stack st = map fst (z_open z)
            /\ zdepth ds z /\ length ds = length (heap st).
(** A node of the walk as its depth, its marker and its text. *)
Definition depth_label (p : nat * node) : nat * (str * str) :=
  (fst p, node_label (snd p)).

(** No level is skipped: the first marker has level 1 at most and every
    other one at most one more than the marker before it. *)
Fixpoint no_skip (d : nat) (levels : list Z) : bool :=
  match levels with
  | [] => true
  | l :: ls => (l <=? Z.of_nat d + 1)%Z && no_skip (Z.to_nat l) ls
  end.

(** A document that uses the four levels in order. *)
Definition four_levels_text : str :=
  L "Section 1. Scope" ++ [newline] ++ L "A. First" ++ [newline]
  ++ L "(1) Alpha" ++ [newline] ++ L "(a) Deep" ++ [newline]
  ++ L "B. Second" ++ [newline] ++ L "Section 2. End".

(** The parse of Scenario A before the collapse: two short childless
    sections and a long one. *)
Definition two_titles : list node :=
  [Node (L "Section 1.") (L "Section 1. Short summary.") [];
   Node (L "Section 2.") (L "Section 2. Another short one.") []].

Definition long_section : node :=
  Node (L "Section 3.") (L "Section 3. " ++ repeat "x" 250) [].

(** The offsets rise strictly. *)
Fixpoint ascending (l : list nat) : bool :=
  match l with
  | a :: ((b :: _) as l') => (a <? b)%nat && ascending l'
  | _ => true
  end.

(** Offset [i] of the text is the start of a line. *)
Definition at_line_start (txt : str) (i : nat) : bool :=
  match i with
  | O => true
  | S j => match nth_error txt j with
           | Some c => Ascii.eqb c newline
           | None => false
           end
  end.

(** ** Blanks *)

Definition tab : ascii := "009".

(** No tab and no two spaces in a row. *)
Fixpoint squeezed (s : str) : bool :=
  match s with
  | c :: s' =>
      negb (Ascii.eqb c tab)
      && match s' with
         | d :: _ => negb (Ascii.eqb c " " && Ascii.eqb d " ")
         | [] => true
         end
      && squeezed s'
  | [] => true
  end.

(** ** Paragraphs *)

Definition nonempty (s : str) : bool :=
  match s with
  | [] => false
  | _ :: _ => true
  end.

(** The lines of a text made of paragraphs that blank lines separate: a
    paragraph line, then an empty line and a paragraph line any number of
    times.  A paragraph line is not empty and, unless it is the first one,
    begins with a marker as [normalize_text] tests it. *)
Fixpoint para_lines (first : bool) (ls : list str) : bool :=
  match ls with
  | [] => false
  | p :: rest =>
      nonempty p && (first || re_match LINE_MARKER p)
      && match rest with
         | [] => true
         | e :: rest' => negb (nonempty e) && para_lines false rest'
         end
  end.

(** [re.sub(r"[ \t]+", " ", text)] *)
Definition squeeze (s : str) : str := re_sub BLANKS (fun _ => L " ") s.

(** The paragraphs that [rebuilt] holds, without the newline that
    [rebuild_line] puts before a paragraph that starts with a marker; the
    flag tells whether it did. *)
Definition decorate (p : bool * str) : str :=
  if fst p then newline :: snd p else snd p.

Definition extend_para (paras : list (bool * str)) (x : str)
  : list (bool * str) :=
  removelast paras
  ++ [(fst (last paras (false, [])), snd (last paras (false, [])) ++ x)].

Definition para_step (paras : list (bool * str)) (line : str)
  : list (bool * str) :=
  let stripped := strip line in
  match stripped with
  | [] => paras
  | _ :: _ =>
      if re_match LINE_MARKER stripped then paras ++ [(true, stripped)]
      else match paras with
           | _ :: _ => extend_para paras (L " " ++ stripped)
           | [] => paras ++ [(false, stripped)]
           end
  end.

(** Not empty, and neither the first nor the last character is white
    space. *)
Definition solid_ends (s : str) : Prop :=
  (exists a t, s = a :: t /\ is_space a = false)
  /\ (exists t b, s = t ++ [b] /\ is_space b = false).

(** The text begins with one of the four markers. *)
Definition starts_marker (p : str) : Prop :=
  exists body l rest, p = body ++ rest /\ marker_body body l.
Definition good_para (p : bool * str) : Prop :=
  no_newline (snd p) = true /\ solid_ends (snd p)
  /\ (fst p = true -> starts_marker (snd p)).

Definition paras_ok (paras : list (bool * str)) : Prop :=
  Forall good_para paras /\ Forall (fun p => fst p = true) (tl paras).

Definition good_line (first : bool) (q : str) : Prop :=
  no_newline q = true /\ solid_ends q
  /\ (first = false -> re_match LINE_MARKER q = true).

(** ** The de-hyphenation in a text *)

(** [w] stands in [s], in one piece. *)
Definition contains (s w : str) : Prop := exists x y, s = x ++ w ++ y.



(* ================================================================== *)
(** * Strings: trimming *)
(* ================================================================== *)

Section Strip.

Lemma lstrip_spaces (ws s : str) :
  forallb is_space ws = true -> lstrip (ws ++ s) = lstrip s.
Proof.
  induction ws as [|c ws IH]; simpl; intros H; [reflexivity|].
  apply andb_prop in H as [Hc Hws]. rewrite Hc. auto.
Qed.

Lemma lstrip_solid (c : ascii) (s : str) :
  is_space c = false -> lstrip (c :: s) = c :: s.
Proof. intros H; simpl; now rewrite H. Qed.

(** [lstrip] drops a run of blanks and keeps the rest. *)
Lemma lstrip_split (s : str) :
  exists ws, forallb is_space ws = true /\ s = ws ++ lstrip s
             /\ (lstrip s = [] \/ exists c t, lstrip s = c :: t /\ is_space c = false).
Proof.
  induction s as [|c s IH]; simpl.
  - exists []; auto.
  - destruct (is_space c) eqn:E.
    + destruct IH as (ws & Hws & Hs & Hd).
      exists (c :: ws); simpl. rewrite E, Hws. repeat split; auto.
      now rewrite <- Hs.
    + exists []; simpl. repeat split; auto. right; eauto.
Qed.

Lemma rstrip_spaces (s ws : str) :
  forallb is_space ws = true -> rstrip (s ++ ws) = rstrip s.
Proof.
  intros H. unfold rstrip. rewrite rev_app_distr.
  rewrite lstrip_spaces; [reflexivity|].
  rewrite forallb_forall in *. intros x Hx. apply H. now apply in_rev.
Qed.

Lemma rstrip_solid (s : str) (c : ascii) :
  is_space c = false -> rstrip (s ++ [c]) = s ++ [c].
Proof.
  intros H. unfold rstrip. rewrite rev_app_distr. simpl. rewrite H.
  simpl. now rewrite rev_involutive.
Qed.

Lemma rstrip_split (s : str) :
  exists ws, forallb is_space ws = true /\ s = rstrip s ++ ws
             /\ (rstrip s = [] \/ exists t c, rstrip s = t ++ [c] /\ is_space c = false).
Proof.
  unfold rstrip. destruct (lstrip_split (rev s)) as (ws & Hws & Hs & Hd).
  exists (rev ws). repeat split.
  - rewrite forallb_forall in *. intros x Hx. apply Hws. now apply in_rev.
  - rewrite <- rev_app_distr, <- Hs. now rewrite rev_involutive.
  - destruct Hd as [Hd | (c & t & Hd & Hc)]; rewrite Hd; simpl; eauto.
Qed.

(** Trimming on the right never cuts into what precedes a solid character. *)
Lemma rstrip_app_solid (s : str) (c : ascii) (t : str) :
  is_space c = false -> exists t', rstrip (s ++ c :: t) = s ++ c :: t'.
Proof.
  intros Hc. destruct (rstrip_split t) as (ws & Hws & Ht & _).
  exists (rstrip t).
  rewrite Ht at 1.
  replace (s ++ c :: rstrip t ++ ws) with ((s ++ c :: rstrip t) ++ ws)
    by (now rewrite <- app_assoc).
  rewrite rstrip_spaces by assumption.
  destruct (rstrip_split t) as (ws' & _ & _ & [E | (t' & d & E & Hd)]).
  - rewrite E. now apply rstrip_solid.
  - rewrite E.
    replace (s ++ c :: t' ++ [d]) with ((s ++ c :: t') ++ [d])
      by (now rewrite <- app_assoc).
    now apply rstrip_solid.
Qed.

(** A token framed by blanks: [strip] gives the token back. *)
Lemma strip_framed (ws1 ws2 body : str) (a b : ascii) :
  forallb is_space ws1 = true -> forallb is_space ws2 = true ->
  is_space a = false -> is_space b = false ->
  strip (ws1 ++ (a :: body ++ [b]) ++ ws2) = a :: body ++ [b].
Proof.
  intros H1 H2 Ha Hb. unfold strip.
  rewrite lstrip_spaces by assumption.
  change ((a :: body ++ [b]) ++ ws2) with (a :: (body ++ [b]) ++ ws2).
  rewrite lstrip_solid by assumption.
  change (a :: (body ++ [b]) ++ ws2) with ((a :: body ++ [b]) ++ ws2).
  rewrite rstrip_spaces by assumption.
  now apply (rstrip_solid (a :: body)).
Qed.

(** The same token followed by anything: it is still what the trimmed text
    begins with. *)
Lemma strip_framed_prefix (ws1 body rest : str) (a b : ascii) :
  forallb is_space ws1 = true ->
  is_space a = false -> is_space b = false ->
  exists t, strip (ws1 ++ (a :: body ++ [b]) ++ rest) = (a :: body ++ [b]) ++ t.
Proof.
  intros H1 Ha Hb. unfold strip.
  rewrite lstrip_spaces by assumption.
  change ((a :: body ++ [b]) ++ rest) with (a :: (body ++ [b]) ++ rest).
  rewrite lstrip_solid by assumption.
  destruct (rstrip_app_solid (a :: body) b rest Hb) as (t' & Ht').
  exists t'.
  replace (a :: (body ++ [b]) ++ rest) with ((a :: body) ++ b :: rest)
    by (simpl; now rewrite <- app_assoc).
  rewrite Ht'. simpl. now rewrite <- app_assoc.
Qed.

End Strip.

(* ================================================================== *)
(** * The matcher: what a successful match looks like *)
(* ================================================================== *)

Lemma lastp_nil prev : lastp prev [] = prev.
Proof. reflexivity. Qed.

Lemma lastp_cons prev c u : lastp prev (c :: u) = lastp (Some c) u.
Proof.
  unfold lastp. simpl. destruct (rev u) eqn:E; simpl; reflexivity.
Qed.

Lemma lastp_app prev u v : lastp prev (u ++ v) = lastp (lastp prev u) v.
Proof.
  revert prev. induction u as [|c u IH]; intros prev; simpl.
  - reflexivity.
  - rewrite !lastp_cons. apply IH.
Qed.

Lemma lastp_snoc prev u c : lastp prev (u ++ [c]) = Some c.
Proof. rewrite lastp_app. reflexivity. Qed.

Section Soundness.

Lemma star_sound {A : Type} (p : ascii -> bool) (s : str) :
  forall (prev : option ascii) (cs : caps)
         (k : option ascii -> str -> caps -> option A) (x : A),
    star p prev s cs k = Some x ->
    exists u s', s = u ++ s' /\ forallb p u = true
                 /\ k (lastp prev u) s' cs = Some x.
Proof.
  induction s as [|c s IH]; intros prev cs k x H; simpl in H.
  - exists [], []; auto.
  - destruct (p c) eqn:Hp.
    + destruct (star p (Some c) s cs k) eqn:E.
      * inversion H; subst a. apply IH in E as (u & s' & -> & Hu & Hk).
        exists (c :: u), s'. simpl. rewrite Hp, Hu, lastp_cons. auto.
      * exists [], (c :: s); auto.
    + exists [], (c :: s); auto.
Qed.

Lemma rmatch_sound (r : re) :
  forall (A : Type) (prev : option ascii) (s : str) (cs : caps)
         (k : option ascii -> str -> caps -> option A) (x : A),
    rmatch r prev s cs k = Some x ->
    exists u s' cs', s = u ++ s' /\ matches r prev u s'
                     /\ k (lastp prev u) s' cs' = Some x.
Proof.
  induction r as [ |c|p|p|p|r1 IH1 r2 IH2|r1 IH1 r2 IH2| | |r1 IH1|i r1 IH1];
    intros A prev s cs k x H; simpl in H.
  - exists [], s, cs; simpl; auto.
  - destruct s as [|a s]; [discriminate|].
    destruct (Ascii.eqb a c) eqn:E; [|discriminate].
    apply Ascii.eqb_eq in E; subst a.
    exists [c], s, cs; simpl; auto.
  - destruct s as [|a s]; [discriminate|].
    destruct (p a) eqn:E; [|discriminate].
    exists [a], s, cs; simpl; eauto.
  - apply star_sound in H as (u & s' & -> & Hu & Hk).
    exists u, s', cs; simpl; auto.
  - destruct s as [|a s]; [discriminate|].
    destruct (p a) eqn:E; [|discriminate].
    apply star_sound in H as (u & s' & -> & Hu & Hk).
    exists (a :: u), s', cs. simpl. rewrite E, Hu, lastp_cons.
    repeat split; auto. discriminate.
  - apply IH1 in H as (u1 & s1 & cs1 & -> & M1 & H).
    apply IH2 in H as (u2 & s2 & cs2 & -> & M2 & H).
    exists (u1 ++ u2), s2, cs2. rewrite <- app_assoc, lastp_app.
    repeat split; auto. simpl. eauto.
  - destruct (rmatch r1 prev s cs k) eqn:E.
    + inversion H; subst a. apply IH1 in E as (u & s' & cs' & -> & M & Hk).
      exists u, s', cs'; simpl; auto.
    + apply IH2 in H as (u & s' & cs' & -> & M & Hk).
      exists u, s', cs'; simpl; auto.
  - destruct prev; [discriminate|]. exists [], s, cs; simpl; auto.
  - destruct prev as [c|].
    + destruct (Ascii.eqb c newline) eqn:E; [|discriminate].
      apply Ascii.eqb_eq in E; subst c. exists [], s, cs; simpl; auto.
    + exists [], s, cs; simpl; auto.
  - destruct (rmatch r1 prev s cs (fun _ _ cs' => Some cs')) eqn:E;
      [|discriminate].
    apply IH1 in E as (v & w & cs' & -> & M & _).
    exists [], (v ++ w), c; simpl. repeat split; eauto.
  - apply IH1 in H as (u & s' & cs' & -> & M & Hk).
    exists u, s'. eexists. simpl. repeat split; eauto.
Qed.

(** A match found at a position consumes a prefix that matches. *)
Lemma match_here_sound (r : re) (prev : option ascii) (s : str)
      (n : nat) (cs : caps) :
  match_here r prev s = Some (n, cs) ->
  exists u s', s = u ++ s' /\ n = length u /\ matches r prev u s'.
Proof.
  unfold match_here. intros H.
  apply rmatch_sound in H as (u & s' & cs' & -> & M & Hk).
  inversion Hk; subst. exists u, s'. repeat split; auto.
  rewrite length_app. lia.
Qed.

End Soundness.

(** Greedy repetition reads a whole run when what follows accepts it. *)
Lemma star_greedy {A : Type} (p : ascii -> bool) (u : str) :
  forall (prev : option ascii) (s : str) (cs : caps)
         (k : option ascii -> str -> caps -> option A) (x : A),
    forallb p u = true ->
    k (lastp prev u) s cs = Some x ->
    match s with [] => True | c :: _ => p c = false end ->
    star p prev (u ++ s) cs k = Some x.
Proof.
  induction u as [|a u IH]; intros prev s cs k x Hu Hk Hs; simpl in *.
  - destruct s as [|c s]; simpl; [assumption|]. now rewrite Hs.
  - apply andb_prop in Hu as [Ha Hu]. rewrite Ha.
    rewrite lastp_cons in Hk. now rewrite (IH (Some a) s cs k x).
Qed.

(* ================================================================== *)
(** * [finditer]: where the matches lie *)
(* ================================================================== *)

(** Every match reported is a match of the pattern at its start offset. *)
Lemma finditer_from_In (r : re) (s : str) :
  forall (prev : option ascii) (off skip : nat) (m : rmatch_obj),
    In m (finditer_from r prev s off skip) ->
    exists pre post n,
      s = pre ++ post /\ skip <= length pre
      /\ m_start m = off + length pre
      /\ match_here r (lastp prev pre) post = Some (n, m_caps m)
      /\ m_group m = firstn n post.
Proof.
  induction s as [|c s IH]; intros prev off skip m H.
  - destruct skip; simpl in H; [|contradiction].
    destruct (match_here r prev []) as [[n cs]|] eqn:E; [|contradiction].
    destruct H as [<-|[]]. exists [], [], n. simpl.
    repeat split; auto; try lia.
  - destruct skip as [|skip]; simpl in H.
    + destruct (match_here r prev (c :: s)) as [[n cs]|] eqn:E.
      * destruct H as [<-|H].
        -- exists [], (c :: s), n. simpl. repeat split; auto; try lia.
        -- apply IH in H as (pre & post & n' & -> & Hs & Hst & Hm & Hg).
           exists (c :: pre), post, n'. simpl. rewrite lastp_cons.
           repeat split; auto; try lia.
      * apply IH in H as (pre & post & n' & -> & Hs & Hst & Hm & Hg).
        exists (c :: pre), post, n'. simpl. rewrite lastp_cons.
        repeat split; auto; try lia.
    + apply IH in H as (pre & post & n' & -> & Hs & Hst & Hm & Hg).
      exists (c :: pre), post, n'. simpl. rewrite lastp_cons.
      repeat split; auto; try lia.
Qed.

Lemma tiled_weaken (text : str) (lo lo' : nat) (ms : list rmatch_obj) :
  tiled text lo ms -> lo' <= lo -> tiled text lo' ms.
Proof.
  intros H Hle. destruct H; constructor; auto. lia.
Qed.

Lemma skipn_app_exact {A : Type} (pre s : list A) :
  skipn (length pre) (pre ++ s) = s.
Proof. induction pre; simpl; auto. Qed.

Lemma skipn_app_more {A : Type} (pre u s : list A) :
  skipn (length pre + length u) (pre ++ u ++ s) = s.
Proof.
  rewrite <- length_app, app_assoc. apply skipn_app_exact.
Qed.

Lemma finditer_from_tiled (r : re) (text s : str) :
  forall (pre : str) (prev : option ascii) (off skip : nat),
    text = pre ++ s -> off = length pre ->
    tiled text (off + skip) (finditer_from r prev s off skip).
Proof.
  induction s as [|c s IH]; intros pre prev off skip Ht Hoff.
  - destruct skip; simpl; [|constructor].
    destruct (match_here r prev []) as [[n cs]|] eqn:E; [|constructor].
    apply match_here_sound in E as (u & s' & Hu & -> & _).
    symmetry in Hu. apply app_eq_nil in Hu as [-> ->]. simpl.
    constructor; simpl.
    + lia.
    + rewrite Nat.add_0_r. reflexivity.
    + subst text off. rewrite length_app. simpl. lia.
    + constructor.
  - assert (Hnext : forall k, tiled text (S off + k)
                                (finditer_from r (Some c) s (S off) k)).
    { intros k. apply (IH (pre ++ [c])).
      - rewrite <- app_assoc. exact Ht.
      - rewrite length_app. simpl. lia. }
    destruct skip as [|skip]; simpl.
    + destruct (match_here r prev (c :: s)) as [[n cs]|] eqn:E.
      * apply match_here_sound in E as (u & s' & Hu & -> & _).
        rewrite Hu, firstn_app, firstn_all, Nat.sub_diag. simpl.
        rewrite app_nil_r.
        constructor; simpl.
        -- lia.
        -- subst text off. rewrite Hu.
           rewrite skipn_app_exact, skipn_app_more. reflexivity.
        -- subst text off. rewrite Hu, !length_app. lia.
        -- eapply tiled_weaken; [apply Hnext|]. lia.
      * eapply tiled_weaken; [apply Hnext|]. lia.
    + eapply tiled_weaken; [apply Hnext|]. lia.
Qed.

Lemma finditer_tiled (r : re) (text : str) :
  tiled text 0 (finditer r text).
Proof.
  unfold finditer. change 0 with (0 + 0) at 1.
  apply finditer_from_tiled with (pre := []); reflexivity.
Qed.

(** A match reported by [finditer], seen from the whole text. *)
Lemma finditer_In (r : re) (text : str) (m : rmatch_obj) :
  In m (finditer r text) ->
  exists pre u rest,
    text = pre ++ u ++ rest /\ m_start m = length pre /\ m_group m = u
    /\ matches r (lastp None pre) u rest.
Proof.
  unfold finditer. intros H.
  apply finditer_from_In in H as (pre & post & n & -> & _ & Hst & Hm & Hg).
  apply match_here_sound in Hm as (u & s' & -> & -> & M).
  exists pre, u, s'. repeat split; auto.
  rewrite Hg, firstn_app, firstn_all, Nat.sub_diag. simpl.
  now rewrite app_nil_r.
Qed.

(* ================================================================== *)
(** * The four marker shapes *)
(* ================================================================== *)

Lemma forallb_rev {A : Type} (p : A -> bool) (l : list A) :
  forallb p (rev l) = forallb p l.
Proof.
  induction l as [|a l IH]; simpl; [reflexivity|].
  rewrite forallb_app, IH. simpl. rewrite andb_true_r. apply andb_comm.
Qed.

Lemma shape_paren_digits_iff (t : str) :
  shape_paren_digits t = true <->
  exists ds, t = "(" :: ds ++ [")"] /\ ds <> [] /\ forallb is_digit ds = true.
Proof.
  split.
  - destruct t as [|a rest]; simpl; [discriminate|].
    destruct (rev rest) as [|z sd] eqn:E; [rewrite andb_false_r; discriminate|].
    intros H. apply andb_prop in H as [Ha H].
    apply andb_prop in H as [H Hd]. apply andb_prop in H as [Hz Hn].
    apply Ascii.eqb_eq in Ha, Hz. subst a z.
    exists (rev sd). repeat split.
    + f_equal. rewrite <- (rev_involutive rest), E. reflexivity.
    + destruct sd; [discriminate|]. simpl. intros C.
      apply app_eq_nil in C as [_ C]. discriminate.
    + now rewrite forallb_rev.
  - intros (ds & -> & Hne & Hd). simpl.
    rewrite rev_app_distr. simpl.
    rewrite length_rev, forallb_rev, Hd.
    destruct ds; [congruence|reflexivity].
Qed.

Lemma fullmatch_upper_dot (t : str) :
  re_fullmatch UPPER_DOT t = shape_upper_dot t.
Proof.
  unfold re_fullmatch, UPPER_DOT, shape_upper_dot.
  destruct t as [|c [|d [|e t]]]; simpl; try reflexivity.
  - now destruct (is_upper c).
  - destruct (is_upper c); simpl; [|reflexivity].
    now destruct (Ascii.eqb d ".").
  - destruct (is_upper c); simpl; [|reflexivity].
    now destruct (Ascii.eqb d ".").
Qed.

Lemma fullmatch_paren_lower (t : str) :
  re_fullmatch PAREN_LOWER t = shape_paren_lower t.
Proof.
  unfold re_fullmatch, PAREN_LOWER, shape_paren_lower.
  destruct t as [|a [|c [|z [|e t]]]]; simpl; try reflexivity.
  - now destruct (Ascii.eqb a "(").
  - destruct (Ascii.eqb a "("); simpl; [|reflexivity].
    now destruct (is_lower c).
  - destruct (Ascii.eqb a "("); simpl; [|reflexivity].
    destruct (is_lower c); simpl; [|reflexivity].
    now destruct (Ascii.eqb z ")").
  - destruct (Ascii.eqb a "("); simpl; [|reflexivity].
    destruct (is_lower c); simpl; [|reflexivity].
    now destruct (Ascii.eqb z ")").
Qed.

Lemma fullmatch_sound (r : re) (t : str) :
  re_fullmatch r t = true -> matches r None t [].
Proof.
  unfold re_fullmatch. intros H.
  destruct (rmatch r None t [] _) as [x|] eqn:E; [|discriminate].
  apply rmatch_sound in E as (u & s' & cs' & -> & M & Hk).
  destruct s'; [|discriminate]. now rewrite app_nil_r.
Qed.

Lemma fullmatch_paren_digits (t : str) :
  re_fullmatch PAREN_DIGITS t = shape_paren_digits t.
Proof.
  apply eq_true_iff_eq. rewrite shape_paren_digits_iff. split.
  - intros H. apply fullmatch_sound in H. simpl in H.
    destruct H as (u1 & u2 & -> & (u3 & u4 & -> & -> & Hne & Hd) & ->).
    exists u4. auto.
  - intros (ds & -> & Hne & Hd).
    destruct ds as [|d ds]; [congruence|]. simpl in Hd.
    apply andb_prop in Hd as [Hd Hds].
    unfold re_fullmatch, PAREN_DIGITS. simpl. rewrite Hd.
    erewrite star_greedy; eauto. simpl. reflexivity.
Qed.

Lemma classify_level_eq (token : str) :
  classify_level token =
  let t := strip token in
  if shape_section t then Returned 1%Z
  else if shape_upper_dot t then Returned 2%Z
  else if shape_paren_digits t then Returned 3%Z
  else if shape_paren_lower t then Returned 4%Z
  else Returned 0%Z.
Proof.
  unfold classify_level, shape_section.
  now rewrite fullmatch_upper_dot, fullmatch_paren_digits, fullmatch_paren_lower.
Qed.

(* ================================================================== *)
(** * What the tokenizer matches *)
(* ================================================================== *)

Lemma upper_not_space (c : ascii) : is_upper c = true -> is_space c = false.
Proof. ascii_cases c. Qed.

Lemma lower_not_digit (c : ascii) : is_lower c = true -> is_digit c = false.
Proof. ascii_cases c. Qed.

Lemma matches_lit (s : str) :
  forall prev u rest, matches (lit s) prev u rest -> u = s.
Proof.
  induction s as [|c s IH]; intros prev u rest H; simpl in H.
  - assumption.
  - destruct H as (u1 & u2 & -> & -> & H). apply IH in H. now subst.
Qed.

(** A match of [TOKEN_PATTERN] stands at a line start and consists of blanks,
    a marker body and, for the parenthesised markers, blanks again. *)
Lemma token_match_shape (prev : option ascii) (u rest : str) :
  matches TOKEN_PATTERN prev u rest ->
  (prev = None \/ prev = Some newline)
  /\ exists ws body tail l,
      u = ws ++ body ++ tail
      /\ forallb is_space ws = true /\ forallb is_space tail = true
      /\ marker_body body l.
Proof.
  unfold TOKEN_PATTERN. intros [H|[H|[H|H]]].
  - destruct H as (u1 & u2 & -> & (a & ws & -> & (-> & Hb) & Hws) & H).
    destruct H as (v1 & v2 & -> & (v3 & v4 & -> & (v5 & v6 & -> & H5 & Hsp) & Hds) & ->).
    apply matches_lit in H5. subst v5.
    destruct Hsp as [Hsp1 Hsp2]. destruct Hds as [Hds1 Hds2].
    split; [exact Hb|].
    exists ws, (L "Section" ++ v6 ++ v4 ++ ["."]), [], 1%Z.
    repeat split; auto.
    + app_norm.
    + now constructor.
  - destruct H as (u1 & u2 & -> & (a & ws & -> & (-> & Hb) & Hws) & H).
    destruct H as (v1 & v2 & -> & (c & -> & Hc) & ->).
    split; [exact Hb|].
    exists ws, [c; "."], [], 2%Z. repeat split; auto. now constructor.
  - destruct H as (u1 & u2 & -> & (u3 & u4 & -> & (u5 & u6 & -> & H56 & H6) & Hsp) & Hah).
    destruct H56 as (a & ws & -> & (-> & Hb) & Hws).
    destruct H6 as (v1 & v2 & -> & (v3 & v4 & -> & -> & Hds) & ->).
    destruct Hds as [Hds1 Hds2]. destruct Hsp as [_ Hsp]. destruct Hah as [-> _].
    split; [exact Hb|].
    exists ws, ("(" :: v4 ++ [")"]), u4, 3%Z. repeat split; auto.
    + app_norm.
    + now constructor.
  - destruct H as (u1 & u2 & -> & (u3 & u4 & -> & (u5 & u6 & -> & H56 & H6) & Hsp) & Hah).
    destruct H56 as (a & ws & -> & (-> & Hb) & Hws).
    destruct H6 as (v1 & v2 & -> & (v3 & v4 & -> & -> & (c & -> & Hc)) & ->).
    destruct Hsp as [_ Hsp]. destruct Hah as [-> _].
    split; [exact Hb|].
    exists ws, ["("; c; ")"], u4, 4%Z. repeat split; auto.
    + app_norm.
    + now constructor.
Qed.

(** A marker body begins and ends with a character that is not blank. *)
Lemma marker_body_solid (body : str) (l : Z) :
  marker_body body l ->
  exists a mid b, body = a :: mid ++ [b]
                  /\ is_space a = false /\ is_space b = false.
Proof.
  destruct 1 as [sp ds _ _ _ _|c Hc|ds _ _|c _].
  - exists "S", (L "ection" ++ sp ++ ds), ".". repeat split.
    app_norm.
  - exists c, [], ".". repeat split. now apply upper_not_space.
  - exists "(", ds, ")". repeat split.
  - exists "(", [c], ")". repeat split.
Qed.

Lemma strip_marker_body (body : str) (l : Z) :
  marker_body body l -> strip body = body.
Proof.
  intros H. apply marker_body_solid in H as (a & mid & b & -> & Ha & Hb).
  pose proof (@strip_framed [] [] mid a b eq_refl eq_refl Ha Hb) as E.
  simpl in E. rewrite app_nil_r in E. exact E.
Qed.

(** [classify_level] on a marker body: the level of its shape. *)
Lemma classify_marker_body (body : str) (l : Z) :
  marker_body body l -> classify_level body = Returned l.
Proof.
  intros H. rewrite classify_level_eq. cbv zeta.
  rewrite (strip_marker_body H).
  destruct H as [sp ds _ _ _ _|c Hc|ds Hne Hds|c Hc].
  - reflexivity.
  - unfold shape_section. simpl. rewrite andb_false_r, Hc. reflexivity.
  - replace (shape_section ("(" :: ds ++ [")"])) with false by reflexivity.
    replace (shape_upper_dot ("(" :: ds ++ [")"])) with false
      by (destruct ds as [|d [|e ds]]; reflexivity).
    assert (E : shape_paren_digits ("(" :: ds ++ [")"]) = true)
      by (apply shape_paren_digits_iff; eauto).
    now rewrite E.
  - unfold shape_section, shape_upper_dot, shape_paren_digits. simpl.
    rewrite (lower_not_digit _ Hc), Hc. reflexivity.
Qed.

Lemma marker_body_level (body : str) (l : Z) :
  marker_body body l -> (1 <= l <= 4)%Z.
Proof. destruct 1; lia. Qed.

(** The token of a match: [match.group().strip()] is the marker body. *)
Lemma token_of_match (text : str) (m : rmatch_obj) :
  In m (finditer TOKEN_PATTERN text) ->
  exists l, marker_body (strip (m_group m)) l.
Proof.
  intros H. apply finditer_In in H as (pre & u & rest & _ & _ & -> & M).
  apply token_match_shape in M as (_ & ws & body & tail & l & -> & Hws & Ht & Hb).
  exists l.
  destruct (marker_body_solid Hb) as (a & mid & b & E & Ha & Hsb).
  rewrite E, strip_framed by assumption. now rewrite <- E.
Qed.

(* ================================================================== *)
(** * The builder: the tree behind the heap *)
(* ================================================================== *)

Lemma shape_ind' (P : shape -> Prop) :
  (forall h kids, Forall P kids -> P (Sh h kids)) -> forall s, P s.
Proof.
  intros step. fix IH 1. intros [h kids]. apply step.
  induction kids as [|k kids IHk]; constructor; [apply IH | exact IHk].
Qed.

Lemma pre_forest_app (F G : list shape) :
  pre_forest (F ++ G) = pre_forest F ++ pre_forest G.
Proof. apply flat_map_app. Qed.

Lemma zpop_stack (z : zipper) :
  map fst (z_open (zpop z)) = tl (map fst (z_open z)).
Proof.
  unfold zpop. destruct z as [dn [|[h kids] [|[h' kids'] rest]]]; reflexivity.
Qed.

Lemma zpop_inv (hp : list cell) (rt : list handle) (z : zipper) :
  inv hp rt z -> inv hp rt (zpop z).
Proof.
  intros [Hd Ho Hl Hp]. unfold zpop.
  destruct z as [dn op]; simpl in *.
  destruct op as [|[h kids] rest]; [constructor; assumption|].
  simpl in Hl. destruct Hl as ((c & Hc & Hch) & Hl).
  rewrite app_nil_r in Hch.
  inversion Ho as [|f fs Hkids Hrest]; subst.
  assert (Hnew : realised hp (Sh h kids)) by (econstructor; eauto).
  destruct rest as [|[h' kids'] rest'].
  - constructor; simpl.
    + apply Forall_app; auto.
    + constructor.
    + simpl in Hl. rewrite Hl, map_app, app_nil_r. reflexivity.
    + rewrite <- Hp. unfold pre_zipper; simpl.
      rewrite pre_forest_app, app_nil_r. simpl. now rewrite app_nil_r.
  - constructor; simpl.
    + assumption.
    + inversion Hrest; subst. constructor; auto.
      simpl. apply Forall_app; auto.
    + simpl in Hl. destruct Hl as ((c' & Hc' & Hch') & Hl). split; auto.
      exists c'. split; auto. rewrite Hch', map_app, app_nil_r. reflexivity.
    + rewrite <- Hp. unfold pre_zipper; simpl.
      rewrite pre_forest_app. simpl. rewrite app_nil_r.
      now rewrite <- !app_assoc.
Qed.

Lemma append_child_length (t x : handle) (hp : list cell) :
  length (append_child t x hp) = length hp.
Proof.
  revert t. induction hp as [|c hp IH]; intros [|t]; simpl; auto.
Qed.

Lemma append_child_other (t x h : handle) (hp : list cell) :
  h <> t -> nth_error (append_child t x hp) h = nth_error hp h.
Proof.
  revert t h. induction hp as [|c hp IH]; intros [|t] [|h] Hne; simpl; auto;
    congruence.
Qed.

Lemma append_child_same (t x : handle) (hp : list cell) (c : cell) :
  nth_error hp t = Some c ->
  nth_error (append_child t x hp) t
  = Some (MkCell (c_marker c) (c_text c) (c_children c ++ [x])).
Proof.
  revert t. induction hp as [|d hp IH]; intros [|t] H; simpl in *;
    try discriminate.
  - now inversion H.
  - now apply IH.
Qed.

Lemma realised_keep (hp hp' : list cell) (s : shape) :
  realised hp s ->
  (forall h c, In h (pre_shape s) -> nth_error hp h = Some c ->
               nth_error hp' h = Some c) ->
  realised hp' s.
Proof.
  induction s as [h kids IH] using shape_ind'. intros R K.
  inversion R as [h0 kids0 c Hc Hch Hk]; subst.
  econstructor.
  - apply K; [simpl; auto | exact Hc].
  - exact Hch.
  - rewrite Forall_forall in *. intros k Hin.
    apply IH; auto. intros h' c' Hin' E. apply K; auto.
    simpl. right. apply in_flat_map. eauto.
Qed.

Lemma links_keep (hp hp' : list cell) (rt : list handle) (dn : list shape)
      (op : list (handle * list shape)) :
  forall tail,
    links hp rt dn tail op ->
    (forall h c, In h (map fst op) -> nth_error hp h = Some c ->
                 nth_error hp' h = Some c) ->
    links hp' rt dn tail op.
Proof.
  induction op as [|[h kids] rest IH]; intros tail Hl K; simpl in *.
  - exact Hl.
  - destruct Hl as ((c & Hc & Hch) & Hl). split.
    + exists c. split; auto.
    + apply IH; auto.
Qed.

Lemma pre_open_frame (op : list (handle * list shape)) (h : handle)
      (ks : list shape) :
  In (h, ks) op ->
  In h (pre_open op) /\ forall x, In x (pre_forest ks) -> In x (pre_open op).
Proof.
  induction op as [|[h' ks'] rest IH]; simpl; [contradiction|].
  intros [E|Hin].
  - inversion E; subst. split.
    + apply in_or_app. right. simpl. auto.
    + intros x Hx. apply in_or_app. right. simpl. auto.
  - destruct (IH Hin) as [H1 H2]. split.
    + apply in_or_app. auto.
    + intros x Hx. apply in_or_app. auto.
Qed.

Lemma zpush_inv (hp : list cell) (rt : list handle) (z : zipper) (cl : cell) :
  inv hp rt z -> c_children cl = [] ->
  inv (match map fst (z_open z) with
       | top :: _ => append_child top (length hp) (hp ++ [cl])
       | [] => hp ++ [cl]
       end)
      (match map fst (z_open z) with
       | _ :: _ => rt
       | [] => rt ++ [length hp]
       end)
      (zpush (length hp) z).
Proof.
  intros [Hd Ho Hl Hp] Hcl. destruct z as [dn op]; simpl in *.
  assert (Hext : forall h c, nth_error hp h = Some c ->
                             nth_error (hp ++ [cl]) h = Some c).
  { intros h c E. rewrite nth_error_app1; auto.
    apply nth_error_Some. congruence. }
  assert (Hnew : nth_error (hp ++ [cl]) (length hp) = Some cl).
  { rewrite nth_error_app2, Nat.sub_diag by lia. reflexivity. }
  assert (Hseq : seq 0 (length (hp ++ [cl])) = seq 0 (length hp) ++ [length hp]).
  { rewrite length_app. simpl. rewrite Nat.add_1_r, seq_S. reflexivity. }
  destruct op as [|[top kids] rest]; simpl.
  - constructor; simpl.
    + rewrite Forall_forall in *. intros s Hs.
      apply realised_keep with (hp := hp); auto.
    + repeat constructor.
    + simpl in Hl. split.
      * exists cl. rewrite Hcl. auto.
      * rewrite Hl, !app_nil_r. reflexivity.
    + unfold pre_zipper in *; simpl in *.
      rewrite app_nil_r in Hp. rewrite Hseq, <- Hp. reflexivity.
  - unfold pre_zipper in Hp; simpl in Hp.
    assert (Hnd : NoDup ((pre_forest dn ++ pre_open rest) ++ top :: pre_forest kids)).
    { rewrite <- app_assoc, Hp. apply seq_NoDup. }
    apply NoDup_remove_2 in Hnd.
    assert (Htop : top < length hp).
    { assert (Hin : In top (seq 0 (length hp))).
      { rewrite <- Hp. apply in_or_app. right. apply in_or_app. right.
        simpl. auto. }
      apply in_seq in Hin. lia. }
    assert (K : forall h c, h <> top -> nth_error hp h = Some c ->
                  nth_error (append_child top (length hp) (hp ++ [cl])) h = Some c).
    { intros h c Hne E. rewrite append_child_other by assumption. auto. }
    simpl in Hl. destruct Hl as ((c & Hc & Hch) & Hl).
    inversion Ho as [|f fs Hkids Hrest]; subst. simpl in Hkids.
    constructor; simpl.
    + rewrite Forall_forall in *. intros s Hs.
      apply realised_keep with (hp := hp); auto.
      intros h c' Hin E. apply K; auto. intros ->. apply Hnd.
      apply in_or_app. left. apply in_or_app. left.
      apply in_flat_map. eauto.
    + constructor; [constructor|]. constructor; simpl.
      * rewrite Forall_forall in *. intros s Hs.
        apply realised_keep with (hp := hp); auto.
        intros h c' Hin E. apply K; auto. intros ->. apply Hnd.
        apply in_or_app. right. apply in_flat_map. eauto.
      * rewrite Forall_forall in *. intros [h ks] Hf. simpl.
        rewrite Forall_forall. intros s Hs.
        apply realised_keep with (hp := hp).
        -- specialize (Hrest _ Hf). simpl in Hrest.
           rewrite Forall_forall in Hrest. auto.
        -- intros h' c' Hin E. apply K; auto. intros ->. apply Hnd.
           apply in_or_app. left. apply in_or_app. right.
           apply (pre_open_frame _ _ _ Hf). apply in_flat_map. eauto.
    + split; [|split].
      * exists cl. rewrite Hcl. split; auto.
        rewrite append_child_other by lia. exact Hnew.
      * eexists. split.
        -- apply append_child_same. apply Hext. exact Hc.
        -- simpl. rewrite Hch, app_nil_r. reflexivity.
      * apply links_keep with (hp := hp); auto.
        intros h c' Hin E. apply K; auto. intros ->. apply Hnd.
        apply in_or_app. left. apply in_or_app. right.
        apply in_map_iff in Hin as ([h ks] & <- & Hf).
        exact (proj1 (pre_open_frame _ _ _ Hf)).
    + unfold pre_zipper; simpl.
      rewrite append_child_length, Hseq, <- Hp.
      now rewrite <- !app_assoc.
Qed.

(** ** One turn of the loop *)

Lemma append_child_labels (t x : handle) (hp : list cell) :
  map label (append_child t x hp) = map label hp.
Proof.
  revert t. induction hp as [|c hp IH]; intros [|t]; simpl; auto.
  now rewrite IH.
Qed.

(** With a level of at least 1 the [while] loop stops before the stack is
    empty: it drops some entries from the top and returns. *)
Lemma pop_while_returns (stk : list handle) (level : Z) :
  (1 <= level)%Z -> exists j, pop_while stk level = Returned (skipn j stk).
Proof.
  intros Hl. induction stk as [|a stk IH].
  - exists 0. simpl. destruct (0 >=? level)%Z eqn:E; [|reflexivity].
    rewrite Z.geb_leb in E. apply Z.leb_le in E. lia.
  - cbn [pop_while].
    destruct (Z.of_nat (length (a :: stk)) >=? level)%Z.
    + destruct IH as (j & Hj). exists (S j). exact Hj.
    + exists 0. reflexivity.
Qed.

Lemma sinv_empty : sinv empty_builder.
Proof.
  exists (MkZipper [] []). split; [|reflexivity].
  constructor; simpl; auto.
Qed.

Lemma zpops (hp : list cell) (rt : list handle) (j : nat) :
  forall z, inv hp rt z ->
            exists z', inv hp rt z'
                       /\ map fst (z_open z') = skipn j (map fst (z_open z)).
Proof.
  induction j as [|j IH]; intros z Hz.
  - exists z. auto.
  - destruct (IH (zpop z) (zpop_inv Hz)) as (z' & Hz' & E).
    exists z'. split; auto. rewrite E, zpop_stack.
    destruct (map fst (z_open z)); simpl; auto. now destruct j.
Qed.

Lemma add_marker_ok (text : str) (st : builder) (m : rmatch_obj)
      (end_ : nat) (l : Z) :
  sinv st ->
  classify_level (strip (m_group m)) = Returned l -> (1 <= l)%Z ->
  exists st',
    add_marker text st m end_ = Returned st'
    /\ sinv st'
    /\ map label (heap st')
       = map label (heap st)
         ++ [(strip (m_group m), strip (slice (m_start m) end_ text))].
Proof.
  intros (z & Hz & Hst) Hc Hl. unfold add_marker. rewrite Hc. simpl.
  destruct (pop_while_returns (stack st) Hl) as (j & Hj). rewrite Hj. simpl.
  destruct (zpops j Hz) as (z' & Hz' & E). rewrite <- Hst in E.
  set (cl := MkCell (strip (m_group m))
                    (strip (slice (m_start m) end_ text)) []).
  pose proof (zpush_inv cl Hz' eq_refl) as Hpush.
  rewrite E in Hpush.
  destruct (skipn j (stack st)) as [|top stk1] eqn:Es.
  - eexists. split; [reflexivity|]. split.
    + exists (zpush (length (heap st)) z'). split; [exact Hpush|].
      simpl. now rewrite E.
    + simpl. rewrite map_app. reflexivity.
  - eexists. split; [reflexivity|]. split.
    + exists (zpush (length (heap st)) z'). split; [exact Hpush|].
      simpl. now rewrite E.
    + simpl. rewrite append_child_labels, map_app. reflexivity.
Qed.

Lemma build_ok (text : str) (ms : list rmatch_obj) :
  forall st,
    sinv st ->
    (forall m, In m ms ->
       exists l, classify_level (strip (m_group m)) = Returned l /\ (1 <= l)%Z) ->
    exists st',
      build text ms st = Returned st'
      /\ sinv st'
      /\ map label (heap st') = map label (heap st) ++ spans text ms.
Proof.
  induction ms as [|m rest IH]; intros st Hst Hms.
  - exists st. simpl. rewrite app_nil_r. auto.
  - destruct (Hms m (or_introl eq_refl)) as (l & Hc & Hl).
    cbn [build spans].
    set (end_ := match rest with m' :: _ => m_start m' | [] => length text end).
    destruct (@add_marker_ok text st m end_ l Hst Hc Hl) as (st1 & E1 & Hst1 & Hlab1).
    rewrite E1. simpl.
    destruct (IH st1 Hst1) as (st' & E' & Hst' & Hlab').
    { intros m' Hin. apply Hms. now right. }
    exists st'. split; [exact E'|]. split; [exact Hst'|].
    rewrite Hlab', Hlab1, <- app_assoc. reflexivity.
Qed.

(** The loop never raises on the tokenizer's matches: every token has a
    level between 1 and 4. *)
Lemma run_builder_ok (text : str) :
  exists st,
    run_builder text = Returned st
    /\ sinv st
    /\ map label (heap st) = spans text (finditer TOKEN_PATTERN text).
Proof.
  unfold run_builder.
  destruct (build_ok text (finditer TOKEN_PATTERN text) sinv_empty)
    as (st & E & Hst & Hlab).
  - intros m Hin. apply token_of_match in Hin as (l & Hb).
    exists l. split.
    + rewrite <- (classify_marker_body Hb) at 1.
      unfold classify_level. cbv zeta.
      now rewrite (strip_marker_body Hb).
    + apply marker_body_level in Hb. lia.
  - exists st. auto.
Qed.

(** ** Reading the tree back *)

Lemma flat_map_length_le {A B : Type} (f : A -> list B) (l : list A) (x : A) :
  In x l -> length (f x) <= length (flat_map f l).
Proof.
  induction l as [|a l IH]; simpl; [contradiction|].
  intros [->|H]; rewrite length_app; [lia|]. specialize (IH H). lia.
Qed.

Lemma read_realised (hp : list cell) (s : shape) :
  forall fuel,
    realised hp s -> length (pre_shape s) <= fuel ->
    read_node fuel hp (sh_handle s) = erase hp s.
Proof.
  induction s as [h kids IH] using shape_ind'. intros fuel R Hf.
  inversion R as [h0 kids0 c Hc Hch Hk]; subst.
  destruct fuel as [|fuel]; simpl in Hf; [lia|].
  simpl. rewrite Hc, Hch, map_map. f_equal.
  apply map_ext_in. intros k Hin.
  rewrite Forall_forall in IH, Hk. apply IH; auto.
  pose proof (flat_map_length_le pre_shape kids k Hin). lia.
Qed.

Lemma erase_labels (hp : list cell) (s : shape) :
  realised hp s ->
  map node_label (nodes_of (erase hp s)) = map (label_at hp) (pre_shape s).
Proof.
  induction s as [h kids IH] using shape_ind'. intros R.
  inversion R as [h0 kids0 c Hc Hch Hk]; subst.
  simpl. unfold label_at at 1. rewrite Hc. simpl. f_equal.
  clear Hch R. induction kids as [|k kids IHk]; simpl; [reflexivity|].
  inversion IH; subst. inversion Hk; subst.
  rewrite !map_app. f_equal; auto.
Qed.

Lemma forest_labels (hp : list cell) (F : list shape) :
  Forall (realised hp) F ->
  map node_label (all_nodes (map (erase hp) F))
  = map (label_at hp) (pre_forest F).
Proof.
  induction 1 as [|s F Hs HF IH]; simpl; [reflexivity|].
  rewrite !map_app, IH, erase_labels by assumption. reflexivity.
Qed.

Lemma label_at_seq (hp : list cell) :
  map (label_at hp) (seq 0 (length hp)) = map label hp.
Proof.
  induction hp as [|c hp IH]; simpl; [reflexivity|].
  f_equal. rewrite <- seq_shift, map_map. exact IH.
Qed.

(** When the loop is over, the heap describes a forest: every cell is a node
    of it, and the pre-order walk meets the cells in the order they were
    created. *)
Lemma sinv_forest (st : builder) :
  sinv st ->
  exists F,
    read_forest st = map (erase (heap st)) F
    /\ Forall (realised (heap st)) F
    /\ pre_forest F = seq 0 (length (heap st)).
Proof.
  intros (z & Hz & _).
  destruct (zpops (length (map fst (z_open z))) Hz) as (z' & Hz' & E).
  rewrite skipn_all in E. apply map_eq_nil in E.
  destruct z' as [F op]; simpl in E; subst op.
  destruct Hz' as [Hd _ Hl Hp]. simpl in *.
  unfold pre_zipper in Hp; simpl in Hp. rewrite app_nil_r in *.
  exists F. repeat split; auto.
  unfold read_forest. rewrite Hl, map_map.
  apply map_ext_in. intros s Hin.
  rewrite Forall_forall in Hd. apply read_realised; auto.
  pose proof (flat_map_length_le pre_shape F s Hin) as Hle.
  unfold pre_forest in Hp. rewrite Hp, length_seq in Hle. exact Hle.
Qed.

(** [parse_legal_structure] returns on every text, and the nodes of its
    forest, walked in pre-order, are the nodes of the matches in match
    order, each with the trimmed token and the trimmed span of its match. *)
Lemma parse_labels (text : str) :
  exists forest,
    parse_legal_structure text = Returned forest
    /\ map node_label (all_nodes forest)
       = spans text (finditer TOKEN_PATTERN text).
Proof.
  destruct (run_builder_ok text) as (st & E & Hst & Hlab).
  unfold parse_legal_structure. rewrite E. simpl.
  exists (read_forest st). split; [reflexivity|].
  destruct (sinv_forest Hst) as (F & HF & HR & HP).
  rewrite HF, forest_labels, HP, label_at_seq by assumption. exact Hlab.
Qed.

(* ================================================================== *)
(** * Properties *)
(* ================================================================== *)

(** C1 (the nesting invariant fails on this code).  On the text
    "Section 1. Scope / (1) Alpha / (2) Beta" the pipeline returns
    Section 1 with the child (1), and (2) as a child of (1): a level-3 node
    directly below a level-3 node, because the loop compares the level of
    the new marker with the depth of the stack and not with the level of its
    top entry. *)
Theorem nesting_violated_on_skipped_level :
  pipeline skipped_level_text = Returned skipped_level_tree
  /\ forallb nested_ok skipped_level_tree = false
  /\ level_of (L "(1)") = 3%Z /\ level_of (L "(2)") = 3%Z.
Proof. vm_compute. repeat split. Qed.

(** C2 (the stack rule of the specification is not the rule of the code).
    On the normalised text of the same input, when the marker (2) of level 3
    arrives the stack holds (1) and Section 1; the code pops nothing since
    the stack has 2 entries and 2 < 3, where the rule of the specification
    pops (1); after the marker the stack holds two entries of level 3. *)
Theorem stack_holds_two_entries_of_one_level :
  exists st,
    run_builder (normalize_text skipped_level_text) = Returned st
    /\ stack_levels st = [3; 3; 1]%Z
    /\ pop_while [1; 0] 3 = Returned [1; 0]
    /\ pop_by_level (fun h => nth h [1; 3]%Z 0%Z) [1; 0] 3 = [0].
Proof. eexists. vm_compute. repeat split. Qed.

(** C3 (Scenario A, as the code runs it).  The pipeline returns the table of
    contents with Section 1 and Section 2, followed by a root node for
    Section 3 that has no children: "(1)" and "(a)" stand in the middle of
    the line of Section 3, where the tokenizer does not look, and remain
    part of the text of Section 3. *)
Theorem scenario_A_result :
  pipeline scenario_A = Returned scenario_A_tree.
Proof. vm_compute. reflexivity. Qed.

(** C3, as the claim states it, fails: the node of Section 3 has no child, so
    none with the marker "(1)". *)
Lemma scenario_A_not_as_announced :
  ~ (exists out, pipeline scenario_A = Returned out /\ scenario_A_announced out).
Proof.
  intros (out & E & toc & s3 & -> & _ & _ & _ & p1 & pa & Hin & _).
  vm_compute in E. inversion E; subst. contradiction.
Qed.

(** ** The table of contents *)

Lemma scan_toc_all_flat (nodes : list node) (i : nat) :
  forallb is_flat_section nodes = true -> scan_toc nodes i = (nodes, 0).
Proof.
  revert i. induction nodes as [|n nodes IH]; intros i H; simpl in *.
  - reflexivity.
  - apply andb_prop in H as [Hn Hr]. rewrite Hn, (IH (S i) Hr). reflexivity.
Qed.

(** When every root node qualifies the loop never breaks, the index of the
    body keeps its initial 0, and the whole sequence follows the table of
    contents that already holds it. *)
Lemma collapse_all_flat (nodes : list node) :
  nodes <> [] -> forallb is_flat_section nodes = true ->
  collapse_table_of_contents nodes = toc_node nodes :: nodes.
Proof.
  intros Hne H. unfold collapse_table_of_contents.
  rewrite scan_toc_all_flat by assumption.
  destruct nodes; [congruence|reflexivity].
Qed.

(** C5 (the collapse duplicates the entries when all root nodes qualify).
    For a text that is only two short section titles the parser returns two
    childless Section nodes, and the collapse returns the table of contents
    holding both, followed by both of them again: 3 root nodes where the
    claim has 1. *)
Theorem collapse_duplicates_when_all_qualify :
  parse_legal_structure (normalize_text titles_only_text)
  = Returned titles_only_nodes
  /\ collapse_table_of_contents titles_only_nodes
     = toc_node titles_only_nodes :: titles_only_nodes
  /\ pipeline titles_only_text
     = Returned (toc_node titles_only_nodes :: titles_only_nodes).
Proof. vm_compute. repeat split. Qed.

(** C7.  Collapsing is idempotent: the synthetic node, whose marker is "TOC",
    is not itself an entry, so a second pass collects nothing. *)
Theorem collapse_idempotent (nodes : list node) :
  collapse_table_of_contents (collapse_table_of_contents nodes)
  = collapse_table_of_contents nodes.
Proof.
  unfold collapse_table_of_contents at 2 3.
  destruct (scan_toc nodes 0) as [entries b] eqn:E.
  destruct entries as [|e entries].
  - unfold collapse_table_of_contents. rewrite E. reflexivity.
  - reflexivity.
Qed.

(** ** The classifier *)

(** C6, as the claim states it, fails: "TOC" has none of the four shapes and
    [classify_level] returns 0 for it. *)
Lemma classify_unknown_does_not_raise :
  ~ (forall token, known_shape token = false ->
                   exists e, classify_level token = Raised e).
Proof.
  intros H. destruct (H (L "TOC") eq_refl) as (e & E). discriminate E.
Qed.

(** C6 (amended).  For every marker outside the four shapes
    [classify_level] returns the level 0; it raises nothing. *)
Theorem classify_unknown_returns_zero (token : str) :
  known_shape token = false -> classify_level token = Returned 0%Z.
Proof.
  intros H. rewrite classify_level_eq. unfold known_shape in H. cbv zeta in *.
  apply orb_false_elim in H as [H H4].
  apply orb_false_elim in H as [H H3].
  apply orb_false_elim in H as [H1 H2].
  now rewrite H1, H2, H3, H4.
Qed.

Lemma classify_unknown_returns_zero_witness :
  known_shape (L "TOC") = false /\ classify_level (L "TOC") = Returned 0%Z.
Proof.
  split; [reflexivity|].
  apply (classify_unknown_returns_zero (L "TOC")). reflexivity.
Defined.

(** ** Markers and spans *)

Lemma token_group_shape (txt : str) (m : rmatch_obj) :
  In m (finditer TOKEN_PATTERN txt) ->
  exists ws body tail l,
    m_group m = ws ++ body ++ tail
    /\ forallb is_space ws = true /\ forallb is_space tail = true
    /\ marker_body body l.
Proof.
  intros H. apply finditer_In in H as (pre & u & rest & _ & _ & -> & M).
  now apply token_match_shape in M as (_ & H).
Qed.

Lemma startswith_app (p t : str) : startswith p (p ++ t) = true.
Proof.
  induction p as [|c p IH]; simpl; [reflexivity|].
  now rewrite Ascii.eqb_refl, IH.
Qed.

(** A slice that starts at a match and ends at or after its end begins with
    the matched text. *)
Lemma slice_from_match (txt g : str) (a b : nat) :
  skipn a txt = g ++ skipn (a + length g) txt ->
  a + length g <= b ->
  exists r, slice a b txt = g ++ r.
Proof.
  intros E Hle. unfold slice. rewrite E.
  exists (firstn (b - a - length g) (skipn (a + length g) txt)).
  rewrite firstn_app.
  rewrite firstn_all2 by lia. reflexivity.
Qed.

(** The trimmed span of a match begins with its trimmed token. *)
Lemma token_prefix_of_span (g r : str) :
  (exists ws body tail l,
      g = ws ++ body ++ tail
      /\ forallb is_space ws = true /\ forallb is_space tail = true
      /\ marker_body body l) ->
  startswith (strip g) (strip (g ++ r)) = true.
Proof.
  intros (ws & body & tail & l & -> & Hws & Ht & Hb).
  destruct (marker_body_solid Hb) as (a & mid & b & -> & Ha & Hsb).
  rewrite strip_framed by assumption.
  replace ((ws ++ (a :: mid ++ [b]) ++ tail) ++ r)
    with (ws ++ (a :: mid ++ [b]) ++ (tail ++ r))
    by (now rewrite <- !app_assoc).
  destruct (@strip_framed_prefix ws mid (tail ++ r) a b Hws Ha Hsb) as (t & ->).
  apply startswith_app.
Qed.

Lemma spans_prefix (txt : str) (ms : list rmatch_obj) :
  forall lo,
    tiled txt lo ms ->
    (forall m, In m ms ->
       exists ws body tail l,
         m_group m = ws ++ body ++ tail
         /\ forallb is_space ws = true /\ forallb is_space tail = true
         /\ marker_body body l) ->
    Forall (fun p => startswith (fst p) (snd p) = true) (spans txt ms).
Proof.
  induction ms as [|m rest IH]; intros lo Ht Hs; simpl; constructor.
  - inversion Ht as [|lo' m' ms' Hlo Hg Hlen Hrest]; subst. simpl.
    assert (Hend : m_start m + length (m_group m)
                   <= match rest with
                      | m' :: _ => m_start m'
                      | [] => length txt
                      end).
    { destruct rest as [|m' rest']; [exact Hlen|].
      now inversion Hrest. }
    destruct (@slice_from_match txt (m_group m) (m_start m) _ Hg Hend)
      as (r & ->).
    apply token_prefix_of_span. apply Hs. now left.
  - inversion Ht; subst. eapply IH; eauto.
    intros m' Hin. apply Hs. now right.
Qed.

(** C10.  [parse_legal_structure] returns on every text, and the text of
    every node of the forest it returns begins with the marker of that
    node. *)
Theorem node_text_begins_with_marker (txt : str) :
  exists forest,
    parse_legal_structure txt = Returned forest
    /\ Forall (fun n => startswith (marker n) (text n) = true)
              (all_nodes forest).
Proof.
  destruct (parse_labels txt) as (forest & E & Hlab).
  exists forest. split; [exact E|].
  pose proof (spans_prefix (finditer_tiled TOKEN_PATTERN txt)
                (@token_group_shape txt)) as Hp.
  rewrite <- Hlab in Hp. rewrite Forall_forall in *.
  intros n Hn. apply (Hp (node_label n)). now apply in_map.
Qed.

Lemma spans_texts (txt : str) (ms : list rmatch_obj) :
  map snd (spans txt ms) = map strip (raw_spans txt ms).
Proof.
  induction ms as [|m rest IH]; simpl; [reflexivity|]. now rewrite IH.
Qed.

Lemma slice_then_rest (txt : str) (a b : nat) :
  a <= b -> slice a b txt ++ skipn b txt = skipn a txt.
Proof.
  intros H. unfold slice.
  replace (skipn b txt) with (skipn (b - a) (skipn a txt)).
  - apply firstn_skipn.
  - rewrite skipn_skipn. f_equal. lia.
Qed.

Lemma slice_to_end (txt : str) (a : nat) :
  slice a (length txt) txt = skipn a txt.
Proof.
  unfold slice. apply firstn_all2. rewrite length_skipn. lia.
Qed.

(** The untrimmed spans lie end to end from the first match to the end of
    the text. *)
Lemma raw_spans_concat (txt : str) (ms : list rmatch_obj) :
  forall lo m,
    tiled txt lo (m :: ms) ->
    concat (raw_spans txt (m :: ms)) = skipn (m_start m) txt.
Proof.
  induction ms as [|m' rest IH]; intros lo m Ht.
  - simpl. rewrite app_nil_r. apply slice_to_end.
  - inversion Ht as [|lo' m0 ms0 Hlo Hg Hlen Hrest]; subst.
    change (raw_spans txt (m :: m' :: rest))
      with (slice (m_start m) (m_start m') txt :: raw_spans txt (m' :: rest)).
    cbn [concat]. rewrite (IH _ _ Hrest).
    apply slice_then_rest. inversion Hrest; subst. lia.
Qed.

(** C4, as the claim states it, fails: the text of a node is trimmed, so the
    line break between two paragraphs is in no node. *)
Lemma span_partition_fails :
  ~ partition_claim (normalize_text two_markers_text).
Proof.
  intros H. specialize (H _ _ _ eq_refl eq_refl).
  vm_compute in H. discriminate H.
Qed.

(** C4 (amended).  When the tokenizer finds a marker, the texts of the nodes
    of the forest, in pre-order, are the spans [text[o_i:o_(i+1)]] of the
    matches (the last one running to the end of the text), each trimmed; the
    untrimmed spans, concatenated, are the text from the start of the first
    match to its end.  What precedes the first match is in no node. *)
Theorem node_texts_are_trimmed_spans (txt : str) (m : rmatch_obj)
        (ms : list rmatch_obj) :
  finditer TOKEN_PATTERN txt = m :: ms ->
  exists forest,
    parse_legal_structure txt = Returned forest
    /\ map text (all_nodes forest) = map strip (raw_spans txt (m :: ms))
    /\ concat (raw_spans txt (m :: ms)) = skipn (m_start m) txt.
Proof.
  intros E. destruct (parse_labels txt) as (forest & Ep & Hlab).
  exists forest. split; [exact Ep|]. split.
  - rewrite <- spans_texts, <- E, <- Hlab, map_map. reflexivity.
  - apply raw_spans_concat with (lo := 0). rewrite <- E.
    apply finditer_tiled.
Qed.

Lemma node_texts_are_trimmed_spans_witness :
  exists m ms,
    finditer TOKEN_PATTERN (normalize_text two_markers_text) = m :: ms
    /\ exists forest,
         parse_legal_structure (normalize_text two_markers_text)
         = Returned forest
         /\ map text (all_nodes forest)
            = map strip (raw_spans (normalize_text two_markers_text) (m :: ms))
         /\ concat (raw_spans (normalize_text two_markers_text) (m :: ms))
            = skipn (m_start m) (normalize_text two_markers_text).
Proof.
  eexists. eexists. split.
  - vm_compute. reflexivity.
  - apply (@node_texts_are_trimmed_spans (normalize_text two_markers_text)).
    vm_compute. reflexivity.
Defined.

(** ** Markers stand at line starts *)

Lemma lastp_in (prev : option ascii) (u : str) :
  u <> [] -> exists c, lastp prev u = Some c /\ In c u.
Proof.
  intros Hne. unfold lastp. destruct (rev u) as [|c r] eqn:E.
  - apply (f_equal (@rev ascii)) in E. rewrite rev_involutive in E.
    simpl in E. congruence.
  - exists c. split; [reflexivity|]. apply in_rev. rewrite E. now left.
Qed.

(** No match of [TOKEN_PATTERN] after a character other than a newline. *)
Lemma token_needs_line_start (c : ascii) (s : str) :
  c <> newline -> match_here TOKEN_PATTERN (Some c) s = None.
Proof.
  intros Hc. destruct (match_here TOKEN_PATTERN (Some c) s) as [[n cs]|] eqn:E;
    [|reflexivity].
  apply match_here_sound in E as (u & s' & _ & _ & M).
  apply token_match_shape in M as ([H|H] & _); congruence.
Qed.

(** A match that starts within a line starts at its first character, where
    the pattern therefore matches. *)
Lemma marker_start_in_line (pre line post : str) (m : rmatch_obj) :
  no_newline line = true ->
  In m (finditer TOKEN_PATTERN (pre ++ line ++ post)) ->
  length pre <= m_start m < length pre + length line ->
  match_here TOKEN_PATTERN (lastp None pre) (line ++ post) <> None.
Proof.
  intros Hnl Hin [Ha Hb]. unfold finditer in Hin.
  apply finditer_from_In in Hin as (pre' & post' & n & Ht & _ & Hst & Hm & _).
  simpl in Hst. rewrite Hst in Ha, Hb.
  apply app_eq_app in Ht as (l1 & [[E1 E2]|[E1 E2]]).
  - (* the match starts at the first character of the line *)
    assert (l1 = []) as ->.
    { apply (f_equal (@length ascii)) in E1. rewrite length_app in E1.
      destruct l1; [reflexivity|simpl in E1; lia]. }
    rewrite app_nil_r in E1. simpl in E2. subst. congruence.
  - destruct l1 as [|x l1].
    + rewrite app_nil_r in E1. simpl in E2. subst. congruence.
    + (* the match would start inside the line *)
      exfalso.
      apply app_eq_app in E2 as (l2 & [[F1 F2]|[F1 F2]]).
      * assert (Hlast : exists c, lastp None pre' = Some c /\ In c line).
        { rewrite E1, lastp_app.
          destruct (@lastp_in (lastp None pre) (x :: l1)) as (c & Hc & Hi);
            [discriminate|].
          exists c. split; [exact Hc|]. rewrite F1. apply in_or_app. now left. }
        destruct Hlast as (c & Hc & Hi).
        rewrite Hc, token_needs_line_start in Hm; [discriminate|].
        unfold no_newline in Hnl. rewrite forallb_forall in Hnl.
        specialize (Hnl c Hi). intros ->.
        unfold newline in Hnl. simpl in Hnl. discriminate.
      * rewrite E1, F1, !length_app in Hb. lia.
Qed.

(** C9.  A line of the text with no newline in it, at whose first character
    the token pattern does not match, holds the start of no marker: whatever
    stands further inside the line, "(1)" and "Section 4" included, is not
    tokenized. *)
Theorem no_marker_inside_line (pre line post : str) :
  no_newline line = true ->
  match_here TOKEN_PATTERN (lastp None pre) (line ++ post) = None ->
  markers_in (pre ++ line ++ post) (length pre) (length pre + length line) = [].
Proof.
  intros Hnl Hstart. unfold markers_in.
  destruct (filter _ _) as [|m l] eqn:E; [reflexivity|exfalso].
  assert (Hin : In m (m :: l)) by now left.
  rewrite <- E in Hin. apply filter_In in Hin as [Hin Hr].
  apply andb_prop in Hr as [Ha Hb].
  apply Nat.leb_le in Ha. apply Nat.ltb_lt in Hb.
  apply (@marker_start_in_line pre line post m Hnl Hin); auto.
Qed.

Lemma no_marker_inside_line_witness :
  no_newline scenario_C_line = true
  /\ match_here TOKEN_PATTERN (lastp None scenario_C_before)
                (scenario_C_line ++ scenario_C_after) = None
  /\ markers_in (scenario_C_before ++ scenario_C_line ++ scenario_C_after)
                (length scenario_C_before)
                (length scenario_C_before + length scenario_C_line) = [].
Proof.
  split; [reflexivity|]. split; [reflexivity|].
  apply (@no_marker_inside_line scenario_C_before scenario_C_line
                                scenario_C_after); reflexivity.
Defined.

(** Scenario C in every text: wherever the line stands, the tokenizer emits
    no marker for it. *)
Lemma scenario_C_no_marker (pre post : str) :
  markers_in (pre ++ scenario_C_line ++ post)
             (length pre) (length pre + length scenario_C_line) = [].
Proof.
  unfold markers_in.
  destruct (filter _ _) as [|m l] eqn:E; [reflexivity|exfalso].
  assert (Hin : In m (m :: l)) by now left.
  rewrite <- E in Hin. apply filter_In in Hin as [Hin Hr].
  apply andb_prop in Hr as [Ha Hb].
  apply Nat.leb_le in Ha. apply Nat.ltb_lt in Hb.
  apply (@marker_start_in_line pre scenario_C_line post m eq_refl Hin); auto.
  destruct (lastp None pre) as [c|].
  - destruct (Ascii.eqb c newline) eqn:F.
    + apply Ascii.eqb_eq in F. subst c. reflexivity.
    + apply token_needs_line_start. intros ->.
      unfold newline in F. simpl in F. discriminate.
  - reflexivity.
Qed.

(** ** De-hyphenation *)

Lemma firstn_consumed {A : Type} (x y : list A) :
  firstn (length (x ++ y) - length y) (x ++ y) = x.
Proof.
  rewrite length_app, Nat.add_sub, firstn_app, Nat.sub_diag, firstn_all.
  simpl. apply app_nil_r.
Qed.

Lemma hyphen_match (prev : option ascii) (a : ascii) (u : str) (d : ascii) (v rest : str) :
  is_word a = true -> forallb is_word u = true ->
  is_word d = true -> forallb is_word v = true ->
  match rest with [] => True | c :: _ => is_word c = false end ->
  match_here HYPHEN_BREAK prev ((a :: u) ++ "-" :: newline :: (d :: v) ++ rest)
  = Some (length (a :: u) + 2 + length (d :: v), [(2, d :: v); (1, a :: u)]).
Proof.
  intros Ha Hu Hd Hv Hr.
  unfold match_here, HYPHEN_BREAK. cbn [rmatch app]. rewrite Ha.
  apply star_greedy; [exact Hu| |reflexivity].
  rewrite !Ascii.eqb_refl, Hd.
  apply star_greedy; [exact Hv| |exact Hr].
  change (a :: u ++ "-" :: newline :: d :: v ++ rest)
    with ((a :: u) ++ "-" :: newline :: d :: v ++ rest).
  change (d :: v ++ rest) with ((d :: v) ++ rest).
  rewrite !firstn_consumed.
  f_equal. f_equal.
  rewrite !length_app. cbn [length]. rewrite !length_app. cbn [length]. lia.
Qed.

Lemma has_break_intro (g : str) (d : ascii) (t : str) :
  g <> [] -> forallb is_word g = true -> is_word d = true ->
  has_break (g ++ "-" :: newline :: d :: t) = true.
Proof.
  intros Hne Hg Hd. induction g as [|c g IH]; [congruence|].
  simpl in Hg. apply andb_prop in Hg as [Hc Hg].
  destruct g as [|c' g].
  - simpl. rewrite Hc, Hd. reflexivity.
  - change ((c :: c' :: g) ++ "-" :: newline :: d :: t)
      with (c :: (c' :: g) ++ "-" :: newline :: d :: t).
    cbn [has_break]. rewrite IH by (auto; discriminate).
    apply orb_true_r.
Qed.

Lemma hyphen_match_has_break (prev : option ascii) (s : str) (x : nat * caps) :
  match_here HYPHEN_BREAK prev s = Some x -> has_break s = true.
Proof.
  destruct x as [n cs]. intros H.
  apply match_here_sound in H as (u & s' & -> & _ & M).
  unfold HYPHEN_BREAK in M. simpl in M.
  destruct M as (u1 & g2 & -> & (u2 & u3 & -> & (g1 & u4 & -> & [Hne1 Hg1] & ->) & ->) & [Hne2 Hg2]).
  destruct g2 as [|d g2]; [congruence|]. simpl in Hg2.
  apply andb_prop in Hg2 as [Hd _].
  replace ((((g1 ++ ["-"]) ++ [newline]) ++ d :: g2) ++ s')
    with (g1 ++ "-" :: newline :: d :: (g2 ++ s'))
    by (rewrite <- !app_assoc; reflexivity).
  now apply has_break_intro.
Qed.

Lemma dehyphenate_from_unchanged (s : str) :
  has_break s = false ->
  forall prev,
    sub_from HYPHEN_BREAK (fun cs => group 1 cs ++ group 2 cs) prev s 0 = s.
Proof.
  induction s as [|c s IH]; intros H prev.
  - reflexivity.
  - cbn [sub_from].
    destruct (match_here HYPHEN_BREAK prev (c :: s)) as [x|] eqn:E.
    + apply hyphen_match_has_break in E. congruence.
    + f_equal. apply IH. simpl in H. now apply orb_false_elim in H as [_ H].
Qed.

Lemma dehyphenate_unchanged (s : str) :
  has_break s = false -> dehyphenate s = s.
Proof. intros H. now apply dehyphenate_from_unchanged. Qed.



(** Scenario B and its neighbours, through the whole of [normalize_text]:
    the word is joined; so are two numbers; a full stop before the hyphen
    prevents the join (the two lines are then merged with a space); of two
    breaks in a row only the first is joined, since the matches of [re.sub]
    do not overlap. *)
Lemma normalize_text_hyphen_examples :
  normalize_text (L "consti-" ++ newline :: L "tution") = L "constitution"
  /\ normalize_text (L "12-" ++ newline :: L "34") = L "1234"
  /\ normalize_text (L "a.-" ++ newline :: L "b") = L "a.- b"
  /\ normalize_text (L "a-" ++ newline :: L "consti-" ++ newline :: L "tution")
     = L "aconsti- tution".
Proof. vm_compute. repeat split. Qed.

(** ** The depth of every node *)

Lemma pop_while_exact (stk : list handle) (level : Z) :
  (1 <= level)%Z ->
  pop_while stk level
  = Returned (skipn (length stk - Z.to_nat (level - 1)) stk).
Proof.
  intros Hl. induction stk as [|a stk IH].
  - simpl. destruct (0 >=? level)%Z eqn:E; [|reflexivity].
    rewrite Z.geb_leb in E. apply Z.leb_le in E. lia.
  - cbn [pop_while].
    destruct (Z.of_nat (length (a :: stk)) >=? level)%Z eqn:E.
    + rewrite Z.geb_leb in E. apply Z.leb_le in E. rewrite IH.
      cbn [length] in *.
      replace (S (length stk) - Z.to_nat (level - 1))
        with (S (length stk - Z.to_nat (level - 1))) by lia.
      reflexivity.
    + rewrite Z.geb_leb in E. apply Z.leb_gt in E. cbn [length] in *.
      replace (S (length stk) - Z.to_nat (level - 1)) with 0 by lia.
      reflexivity.
Qed.

Lemma at_depth_grow (ds extra : list nat) (s : shape) :
  forall d, at_depth ds d s -> at_depth (ds ++ extra) d s.
Proof.
  induction s as [h kids IH] using shape_ind'. intros d H.
  inversion H as [d0 h0 kids0 Hd Hk]; subst. constructor.
  - rewrite nth_error_app1; auto. apply nth_error_Some. congruence.
  - rewrite Forall_forall in *. auto.
Qed.

Lemma frames_depth_grow (ds extra : list nat)
      (open : list (handle * list shape)) :
  frames_depth ds open -> frames_depth (ds ++ extra) open.
Proof.
  induction open as [|[h kids] rest IH]; simpl; [auto|].
  intros (Hh & Hk & Hr). repeat split; auto.
  - rewrite nth_error_app1; auto. apply nth_error_Some. congruence.
  - rewrite Forall_forall in *. intros k Hin. now apply at_depth_grow, Hk.
Qed.

Lemma zpop_depth (ds : list nat) (z : zipper) :
  zdepth ds z -> zdepth ds (zpop z).
Proof.
  destruct z as [dn op]. unfold zdepth, zpop. simpl.
  intros [Hd Hf]. destruct op as [|[h kids] rest]; [auto|].
  simpl in Hf. destruct Hf as (Hh & Hk & Hr).
  destruct rest as [|[h' kids'] rest']; simpl in *.
  - split; auto. apply Forall_app. split; auto.
    repeat constructor; auto.
  - destruct Hr as (Hh' & Hk' & Hr'). repeat split; auto.
    apply Forall_app. split; auto. repeat constructor; auto.
Qed.

Lemma zpush_depth (ds : list nat) (z : zipper) :
  zdepth ds z ->
  zdepth (ds ++ [S (length (z_open z))]) (zpush (length ds) z).
Proof.
  destruct z as [dn op]. unfold zdepth, zpush. simpl.
  intros [Hd Hf]. split.
  - rewrite Forall_forall in *. intros s Hs. now apply at_depth_grow, Hd.
  - repeat split.
    + rewrite nth_error_app2, Nat.sub_diag by lia. reflexivity.
    + constructor.
    + now apply frames_depth_grow.
Qed.

Lemma zpops_depth (hp : list cell) (rt : list handle) (ds : list nat)
      (j : nat) :
  forall z, inv hp rt z -> zdepth ds z ->
            exists z', inv hp rt z' /\ zdepth ds z'
                       /\ map fst (z_open z') = skipn j (map fst (z_open z)).
Proof.
  induction j as [|j IH]; intros z Hz Hd.
  - exists z. auto.
  - destruct (IH (zpop z) (zpop_inv Hz) (zpop_depth Hd)) as (z' & Hz' & Hd' & E).
    exists z'. split; [exact Hz'|]. split; [exact Hd'|].
    rewrite E, zpop_stack.
    destruct (map fst (z_open z)); simpl; auto. now destruct j.
Qed.

Lemma dinv_empty : dinv empty_builder [].
Proof.
  exists (MkZipper [] []). split; [|repeat split; simpl; auto].
  constructor; simpl; auto.
Qed.

Lemma add_marker_depth (txt : str) (st : builder) (m : rmatch_obj)
      (end_ : nat) (l : Z) (ds : list nat) :
  dinv st ds ->
  classify_level (strip (m_group m)) = Returned l -> (1 <= l)%Z ->
  exists st',
    add_marker txt st m end_ = Returned st'
    /\ dinv st' (ds ++ [next_depth (length (stack st)) l])
    /\ length (stack st') = next_depth (length (stack st)) l.
Proof.
  intros (z & Hz & Hst & Hd & Hlen) Hc Hl. unfold add_marker.
  rewrite Hc. simpl. rewrite (pop_while_exact _ Hl). simpl.
  set (j := length (stack st) - Z.to_nat (l - 1)).
  destruct (zpops_depth j Hz Hd) as (z' & Hz' & Hd' & E).
  rewrite <- Hst in E.
  set (cl := MkCell (strip (m_group m))
                    (strip (slice (m_start m) end_ txt)) []).
  pose proof (zpush_inv cl Hz' eq_refl) as Hpush.
  pose proof (zpush_depth Hd') as Hpd.
  assert (Hopen : length (z_open z') = Nat.min (length (stack st)) (Z.to_nat (l - 1))).
  { rewrite <- (length_map fst), E, length_skipn. unfold j. lia. }
  rewrite Hopen, Hlen in Hpd. fold (next_depth (length (stack st)) l) in Hpd.
  rewrite E in Hpush.
  assert (Hstk : length (skipn j (stack st))
                 = Nat.min (length (stack st)) (Z.to_nat (l - 1))).
  { rewrite length_skipn. unfold j. lia. }
  destruct (skipn j (stack st)) as [|top stk1] eqn:Es.
  - eexists. split; [reflexivity|]. split.
    + exists (zpush (length (heap st)) z').
      split; [exact Hpush|]. split; [simpl; now rewrite E|].
      split; [exact Hpd|]. simpl. rewrite !length_app. simpl. lia.
    + simpl. unfold next_depth. simpl in Hstk. lia.
  - eexists. split; [reflexivity|]. split.
    + exists (zpush (length (heap st)) z').
      split; [exact Hpush|]. split; [simpl; now rewrite E|].
      split; [exact Hpd|].
      simpl. rewrite append_child_length, !length_app. simpl. lia.
    + simpl. unfold next_depth. simpl in Hstk. lia.
Qed.

Lemma build_depth (txt : str) (ms : list rmatch_obj) :
  forall st ds,
    dinv st ds ->
    (forall m, In m ms ->
       exists l, classify_level (strip (m_group m)) = Returned l /\ (1 <= l)%Z) ->
    exists st',
      build txt ms st = Returned st'
      /\ dinv st' (ds ++ stack_depths (length (stack st)) (map match_level ms)).
Proof.
  induction ms as [|m rest IH]; intros st ds Hst Hms.
  - exists st. simpl. rewrite app_nil_r. auto.
  - destruct (Hms m (or_introl eq_refl)) as (l & Hc & Hl).
    cbn [build map stack_depths].
    set (end_ := match rest with m' :: _ => m_start m' | [] => length txt end).
    destruct (@add_marker_depth txt st m end_ l ds Hst Hc Hl)
      as (st1 & E1 & Hst1 & Hlen1).
    rewrite E1. simpl.
    destruct (IH st1 _ Hst1) as (st' & E' & Hst').
    { intros m' Hin. apply Hms. now right. }
    exists st'. split; [exact E'|].
    assert (Hml : match_level m = l).
    { unfold match_level, level_of. now rewrite Hc. }
    rewrite Hml. rewrite <- app_assoc, Hlen1 in Hst'. exact Hst'.
Qed.

Lemma token_level_ok (txt : str) (m : rmatch_obj) :
  In m (finditer TOKEN_PATTERN txt) ->
  exists l, classify_level (strip (m_group m)) = Returned l
            /\ (1 <= l <= 4)%Z.
Proof.
  intros Hin. apply token_of_match in Hin as (l & Hb).
  exists l. split.
  - rewrite <- (classify_marker_body Hb) at 1.
    unfold classify_level. cbv zeta.
    now rewrite (strip_marker_body Hb).
  - now apply marker_body_level in Hb.
Qed.

Lemma dinv_forest (st : builder) (ds : list nat) :
  dinv st ds ->
  exists F,
    read_forest st = map (erase (heap st)) F
    /\ Forall (realised (heap st)) F
    /\ pre_forest F = seq 0 (length (heap st))
    /\ Forall (at_depth ds 1) F.
Proof.
  intros (z & Hz & _ & Hd & _).
  destruct (zpops_depth (length (map fst (z_open z))) Hz Hd)
    as (z' & Hz' & Hd' & E).
  rewrite skipn_all in E. apply map_eq_nil in E.
  destruct z' as [F op]; simpl in E; subst op.
  destruct Hz' as [Hr _ Hl Hp]. destruct Hd' as [HdF _]. simpl in *.
  unfold pre_zipper in Hp; simpl in Hp. rewrite app_nil_r in *.
  exists F. repeat split; auto.
  unfold read_forest. rewrite Hl, map_map.
  apply map_ext_in. intros s Hin.
  rewrite Forall_forall in Hr. apply read_realised; auto.
  pose proof (flat_map_length_le pre_shape F s Hin) as Hle.
  unfold pre_forest in Hp. rewrite Hp, length_seq in Hle. exact Hle.
Qed.

Lemma erase_walk (hp : list cell) (ds : list nat) (s : shape) :
  forall d,
    realised hp s -> at_depth ds d s ->
    map depth_label (walk d (erase hp s))
    = map (fun h => (nth h ds 0, label_at hp h)) (pre_shape s).
Proof.
  induction s as [h kids IH] using shape_ind'. intros d R D.
  inversion R as [h0 kids0 c Hc Hch Hk]; subst.
  inversion D as [d0 h1 kids1 Hd Hkd]; subst.
  simpl. unfold label_at at 1. rewrite Hc. simpl.
  rewrite (nth_error_nth _ _ 0 Hd). unfold depth_label at 1. simpl.
  f_equal.
  clear Hch R D Hc. induction kids as [|k kids IHk]; simpl; [reflexivity|].
  inversion IH; subst. inversion Hk; subst. inversion Hkd; subst.
  rewrite !map_app. f_equal; auto.
Qed.

Lemma forest_walk (hp : list cell) (ds : list nat) (F : list shape) :
  Forall (realised hp) F -> Forall (at_depth ds 1) F ->
  map depth_label (walk_forest (map (erase hp) F))
  = map (fun h => (nth h ds 0, label_at hp h)) (pre_forest F).
Proof.
  induction F as [|s F IH]; intros HR HD; simpl; [reflexivity|].
  inversion HR; subst. inversion HD; subst.
  unfold walk_forest in *. simpl. rewrite !map_app. f_equal.
  - now apply erase_walk.
  - now apply IH.
Qed.

Lemma depth_label_seq (hp : list cell) :
  forall ds, length ds = length hp ->
    map (fun h => (nth h ds 0, label_at hp h)) (seq 0 (length hp))
    = combine ds (map label hp).
Proof.
  induction hp as [|c hp IH]; intros [|d ds] H; simpl in *;
    try discriminate; [reflexivity|].
  f_equal. rewrite <- seq_shift, map_map. apply IH. lia.
Qed.

(** The forest in full: the nodes in pre-order are the nodes of the matches
    in match order, and the depth of each is the depth the stack had when
    it was pushed. *)
Lemma parse_walk (txt : str) :
  exists forest,
    parse_legal_structure txt = Returned forest
    /\ map depth_label (walk_forest forest)
       = combine (stack_depths 0 (map match_level (finditer TOKEN_PATTERN txt)))
                 (spans txt (finditer TOKEN_PATTERN txt)).
Proof.
  destruct (run_builder_ok txt) as (st & E & _ & Hlab).
  destruct (build_depth txt (finditer TOKEN_PATTERN txt) dinv_empty)
    as (st' & E' & Hd).
  { intros m Hin. apply token_level_ok in Hin as (l & Hc & Hl).
    exists l. split; [exact Hc|lia]. }
  unfold run_builder in E. rewrite E in E'. inversion E'; subst st'.
  simpl in Hd.
  unfold parse_legal_structure, run_builder. rewrite E. simpl.
  exists (read_forest st). split; [reflexivity|].
  destruct (dinv_forest Hd) as (F & HF & HR & HP & HD).
  destruct Hd as (_ & _ & _ & _ & Hlen).
  rewrite HF, (forest_walk HR HD), HP, depth_label_seq, Hlab by assumption.
  reflexivity.
Qed.

Lemma spans_length (txt : str) (ms : list rmatch_obj) :
  length (spans txt ms) = length ms.
Proof. induction ms; simpl; auto. Qed.

Lemma spans_markers (txt : str) (ms : list rmatch_obj) :
  map fst (spans txt ms) = map (fun m => strip (m_group m)) ms.
Proof. induction ms as [|m ms IH]; simpl; [reflexivity|]. now rewrite IH. Qed.

Lemma stack_depths_length (levels : list Z) :
  forall d, length (stack_depths d levels) = length levels.
Proof. induction levels; intros d; simpl; auto. Qed.

Lemma map_fst_combine {A B : Type} (l : list A) (l' : list B) :
  length l = length l' -> map fst (combine l l') = l.
Proof.
  revert l'. induction l as [|a l IH]; intros [|b l'] H; simpl in *;
    try discriminate; [reflexivity|]. f_equal. apply IH. lia.
Qed.

Lemma map_snd_combine {A B : Type} (l : list A) (l' : list B) :
  length l = length l' -> map snd (combine l l') = l'.
Proof.
  revert l'. induction l as [|a l IH]; intros [|b l'] H; simpl in *;
    try discriminate; [reflexivity|]. f_equal. apply IH. lia.
Qed.

(** X1.  [parse_legal_structure] returns on every text, and its forest is
    the one the loop describes: walked in pre-order it has one node per
    match, in match order, whose marker is the trimmed token and whose text
    is the trimmed span of the match, at the depth the stack had once the
    node was pushed: one more than the smaller of the depth before and the
    level of the marker less one. *)
Theorem forest_follows_matches_and_stack (txt : str) :
  exists forest,
    parse_legal_structure txt = Returned forest
    /\ map (fun p => marker (snd p)) (walk_forest forest)
       = map (fun m => strip (m_group m)) (finditer TOKEN_PATTERN txt)
    /\ map (fun p => text (snd p)) (walk_forest forest)
       = map strip (raw_spans txt (finditer TOKEN_PATTERN txt))
    /\ map fst (walk_forest forest)
       = stack_depths 0 (map match_level (finditer TOKEN_PATTERN txt)).
Proof.
  destruct (parse_walk txt) as (forest & E & Hw).
  exists forest. split; [exact E|].
  set (ms := finditer TOKEN_PATTERN txt) in *.
  assert (Hlen : length (stack_depths 0 (map match_level ms))
                 = length (spans txt ms)).
  { now rewrite stack_depths_length, length_map, spans_length. }
  repeat split.
  - rewrite <- (spans_markers txt).
    rewrite <- (map_snd_combine _ _ Hlen), <- Hw, !map_map. reflexivity.
  - rewrite <- (spans_texts txt).
    rewrite <- (map_snd_combine _ _ Hlen), <- Hw, !map_map. reflexivity.
  - rewrite <- (map_fst_combine _ _ Hlen), <- Hw, map_map. reflexivity.
Qed.

Lemma depths_below_levels (txt : str) (ms : list rmatch_obj) :
  forall d,
    (forall m, In m ms ->
       exists l, classify_level (strip (m_group m)) = Returned l
                 /\ (1 <= l <= 4)%Z) ->
    Forall (fun x => (Z.of_nat (fst x) <= level_of (fst (snd x)) <= 4)%Z)
           (combine (stack_depths d (map match_level ms)) (spans txt ms)).
Proof.
  induction ms as [|m rest IH]; intros d Hms; simpl; constructor.
  - destruct (Hms m (or_introl eq_refl)) as (l & Hc & Hl). simpl.
    unfold match_level, level_of. rewrite Hc. unfold next_depth. lia.
  - apply IH. intros m' Hin. apply Hms. now right.
Qed.

(** X2.  In the forest of every text a node is never deeper than the level
    of its marker, and that level is at most 4: the forest has at most 4
    levels of nesting. *)
Theorem depth_at_most_level (txt : str) :
  exists forest,
    parse_legal_structure txt = Returned forest
    /\ Forall (fun p => (Z.of_nat (fst p) <= level_of (marker (snd p)) <= 4)%Z)
              (walk_forest forest).
Proof.
  destruct (parse_walk txt) as (forest & E & Hw).
  exists forest. split; [exact E|].
  pose proof (depths_below_levels txt (finditer TOKEN_PATTERN txt) 0
                (@token_level_ok txt)) as H.
  rewrite <- Hw in H. apply Forall_map in H. exact H.
Qed.

Lemma node_ind' (P : node -> Prop) :
  (forall mk t cs, Forall P cs -> P (Node mk t cs)) -> forall n, P n.
Proof.
  intros step. fix IH 1. intros [mk t cs]. apply step.
  induction cs as [|c cs IHc]; constructor; [apply IH | exact IHc].
Qed.

Lemma depths_are_levels (txt : str) (ms : list rmatch_obj) :
  forall d,
    (forall m, In m ms ->
       exists l, classify_level (strip (m_group m)) = Returned l
                 /\ (1 <= l <= 4)%Z) ->
    no_skip d (map match_level ms) = true ->
    Forall (fun x => Z.of_nat (fst x) = level_of (fst (snd x)))
           (combine (stack_depths d (map match_level ms)) (spans txt ms)).
Proof.
  induction ms as [|m rest IH]; intros d Hms Hns; simpl; constructor.
  - destruct (Hms m (or_introl eq_refl)) as (l & Hc & Hl). simpl in *.
    apply andb_prop in Hns as [Hle _]. apply Z.leb_le in Hle.
    unfold match_level, level_of in *. rewrite Hc in *.
    unfold next_depth. lia.
  - destruct (Hms m (or_introl eq_refl)) as (l & Hc & Hl). simpl in Hns.
    apply andb_prop in Hns as [Hle Hns]. apply Z.leb_le in Hle.
    assert (E : next_depth d (match_level m) = Z.to_nat (match_level m)).
    { unfold match_level, level_of in *. rewrite Hc in *.
      unfold next_depth. lia. }
    rewrite E. apply IH; auto. intros m' Hin. apply Hms. now right.
Qed.

(** Where every node sits at the depth of its level, a child has exactly one
    level more than its parent. *)
Lemma depth_is_level_nested (n : node) :
  forall d,
    Forall (fun p => Z.of_nat (fst p) = level_of (marker (snd p))) (walk d n) ->
    nested_ok n = true.
Proof.
  induction n as [mk t cs IH] using node_ind'. intros d H.
  simpl in H. inversion H as [|p ps Hn Hcs]; subst. simpl in Hn.
  simpl. apply andb_true_intro. split.
  - apply orb_true_intro. right. apply forallb_forall. intros c Hc.
    assert (Hin : In (S d, c) (flat_map (walk (S d)) cs)).
    { apply in_flat_map. exists c. split; auto. destruct c; simpl; auto. }
    rewrite Forall_forall in Hcs. specialize (Hcs _ Hin). simpl in Hcs.
    apply Z.ltb_lt. lia.
  - apply forallb_forall. intros c Hc.
    rewrite Forall_forall in IH. apply (IH c Hc (S d)).
    rewrite Forall_forall in *. intros p Hp. apply Hcs.
    apply in_flat_map. eauto.
Qed.

Lemma scan_toc_break (entries : list node) (n : node) (rest : list node) :
  forall i,
    forallb is_flat_section entries = true -> is_flat_section n = false ->
    scan_toc (entries ++ n :: rest) i = (entries, i + length entries).
Proof.
  induction entries as [|e entries IH]; intros i He Hn; simpl in *.
  - rewrite Hn. f_equal. lia.
  - apply andb_prop in He as [H1 H2]. rewrite H1, (IH (S i) H2 Hn).
    f_equal. lia.
Qed.

(** The leading run of qualifying nodes, and the node that ends it if there
    is one. *)
Lemma flat_prefix_split (nodes : list node) :
  forallb is_flat_section nodes = true
  \/ exists entries n rest,
       nodes = entries ++ n :: rest
       /\ forallb is_flat_section entries = true
       /\ is_flat_section n = false.
Proof.
  induction nodes as [|a nodes IH]; [now left|].
  destruct (is_flat_section a) eqn:Ha.
  - destruct IH as [H|(entries & n & rest & -> & He & Hn)].
    + left. simpl. now rewrite Ha, H.
    + right. exists (a :: entries), n, rest. simpl. rewrite Ha, He. auto.
  - right. exists [], a, nodes. auto.
Qed.

Lemma collapse_keeps_nesting (nodes : list node) :
  forallb nested_ok nodes = true ->
  forallb nested_ok (collapse_table_of_contents nodes) = true.
Proof.
  intros H. destruct (flat_prefix_split nodes)
    as [Hall|(entries & n & rest & -> & He & Hn)].
  - destruct nodes as [|a nodes]; [reflexivity|].
    rewrite collapse_all_flat by (auto; discriminate).
    change (forallb nested_ok (toc_node (a :: nodes) :: a :: nodes))
      with (nested_ok (toc_node (a :: nodes))
            && forallb nested_ok (a :: nodes)).
    rewrite H, andb_true_r. unfold toc_node. cbn [nested_ok].
    rewrite H. reflexivity.
  - unfold collapse_table_of_contents.
    rewrite (@scan_toc_break entries n rest 0 He Hn).
    destruct entries as [|e entries]; [exact H|].
    cbn [Nat.add]. rewrite skipn_app_exact.
    rewrite forallb_app in H. apply andb_prop in H as [H1 H2].
    change (forallb nested_ok (toc_node (e :: entries) :: n :: rest))
      with (nested_ok (toc_node (e :: entries))
            && forallb nested_ok (n :: rest)).
    rewrite H2, andb_true_r. unfold toc_node. cbn [nested_ok].
    rewrite H1. reflexivity.
Qed.

(** X3.  When no level is skipped (the first marker is a Section and every
    other marker is at most one level below the one before it), the whole
    pipeline returns a forest in which every direct child of every node
    other than the table of contents has a level strictly greater than its
    parent's. *)
Theorem nesting_holds_without_skipped_levels (raw_text : str) :
  no_skip 0 (map match_level
                 (finditer TOKEN_PATTERN (normalize_text raw_text))) = true ->
  exists out,
    pipeline raw_text = Returned out /\ forallb nested_ok out = true.
Proof.
  intros Hns. unfold pipeline.
  destruct (parse_walk (normalize_text raw_text)) as (forest & E & Hw).
  rewrite E. simpl. eexists. split; [reflexivity|].
  apply collapse_keeps_nesting.
  pose proof (depths_are_levels (normalize_text raw_text) _ 0
                (@token_level_ok (normalize_text raw_text)) Hns) as H.
  rewrite <- Hw in H. apply Forall_map in H.
  apply forallb_forall. intros n Hn.
  apply depth_is_level_nested with (d := 1).
  rewrite Forall_forall in *. intros p Hp. apply (H p).
  unfold walk_forest. apply in_flat_map. eauto.
Qed.

Lemma nesting_holds_without_skipped_levels_witness :
  no_skip 0 (map match_level
                 (finditer TOKEN_PATTERN (normalize_text four_levels_text)))
  = true
  /\ exists out,
       pipeline four_levels_text = Returned out
       /\ forallb nested_ok out = true.
Proof.
  split; [vm_compute; reflexivity|].
  apply (@nesting_holds_without_skipped_levels four_levels_text).
  vm_compute. reflexivity.
Defined.

(** ** The table of contents, the body present *)

(** X4.  When a node that does not qualify follows a run of qualifying
    nodes, the collapse wraps exactly that run in the table of contents and
    keeps the node and everything after it as they are; with an empty run
    the sequence is returned unchanged. *)
Theorem collapse_wraps_leading_entries (entries : list node) (n : node)
        (rest : list node) :
  forallb is_flat_section entries = true -> is_flat_section n = false ->
  collapse_table_of_contents (entries ++ n :: rest)
  = match entries with
    | [] => n :: rest
    | _ :: _ => toc_node entries :: n :: rest
    end.
Proof.
  intros He Hn. unfold collapse_table_of_contents.
  rewrite (@scan_toc_break entries n rest 0 He Hn). simpl.
  destruct entries as [|e entries]; [reflexivity|].
  f_equal. change (e :: entries) with ([e] ++ entries).
  rewrite <- app_assoc. simpl.
  now rewrite skipn_app_exact.
Qed.

Lemma collapse_wraps_leading_entries_witness :
  forallb is_flat_section two_titles = true
  /\ is_flat_section long_section = false
  /\ collapse_table_of_contents (two_titles ++ long_section :: [])
     = match two_titles with
       | [] => long_section :: []
       | _ :: _ => toc_node two_titles :: long_section :: []
       end.
Proof.
  split; [reflexivity|]. split; [reflexivity|].
  apply (@collapse_wraps_leading_entries two_titles long_section []);
    reflexivity.
Defined.

Lemma all_nodes_app (a b : list node) :
  all_nodes (a ++ b) = all_nodes a ++ all_nodes b.
Proof. apply flat_map_app. Qed.

(** X5.  The collapse drops nothing: every node of the sequence it is given,
    at any depth, is a node of its result. *)
Theorem collapse_loses_no_node (nodes : list node) :
  incl (all_nodes nodes) (all_nodes (collapse_table_of_contents nodes)).
Proof.
  intros x Hx. destruct (flat_prefix_split nodes)
    as [Hall|(entries & n & rest & -> & He & Hn)].
  - destruct nodes as [|a nodes]; [exact Hx|].
    rewrite collapse_all_flat by (auto; discriminate).
    change (toc_node (a :: nodes) :: a :: nodes)
      with ([toc_node (a :: nodes)] ++ a :: nodes).
    rewrite all_nodes_app. apply in_or_app. now right.
  - unfold collapse_table_of_contents.
    rewrite (@scan_toc_break entries n rest 0 He Hn).
    destruct entries as [|e entries]; [exact Hx|].
    cbn [Nat.add]. rewrite skipn_app_exact.
    rewrite all_nodes_app in Hx. apply in_app_or in Hx as [Hx|Hx].
    + unfold all_nodes, toc_node. cbn [flat_map nodes_of].
      right. apply in_or_app. left. exact Hx.
    + change (toc_node (e :: entries) :: n :: rest)
        with ([toc_node (e :: entries)] ++ n :: rest).
      rewrite all_nodes_app. apply in_or_app. now right.
Qed.

Lemma str_eqb_eq (a b : str) : str_eqb a b = true -> a = b.
Proof.
  revert b. induction a as [|x a IH]; intros [|y b] H; simpl in H;
    try discriminate; [reflexivity|].
  apply andb_prop in H as [H1 H2]. apply Ascii.eqb_eq in H1.
  f_equal; auto.
Qed.

Lemma spans_not_toc (txt : str) (ms : list rmatch_obj) :
  (forall m, In m ms ->
     exists l, classify_level (strip (m_group m)) = Returned l
               /\ (1 <= l <= 4)%Z) ->
  Forall (fun x => str_eqb (fst x) (L "TOC") = false) (spans txt ms).
Proof.
  induction ms as [|m ms IH]; intros Hms; cbn [spans]; constructor.
  - destruct (Hms m (or_introl eq_refl)) as (l & Hc & Hl). cbn [fst].
    destruct (str_eqb (strip (m_group m)) (L "TOC")) eqn:Es; [|reflexivity].
    apply str_eqb_eq in Es. rewrite Es in Hc. vm_compute in Hc.
    inversion Hc. lia.
  - apply IH. intros m' Hin. apply Hms. now right.
Qed.

Lemma parsed_nodes_not_toc (txt : str) (forest : list node) :
  parse_legal_structure txt = Returned forest ->
  Forall (fun n => is_toc n = false) (all_nodes forest).
Proof.
  intros E. destruct (parse_labels txt) as (forest' & E' & Hlab).
  rewrite E in E'. inversion E'; subst forest'.
  pose proof (spans_not_toc txt (finditer TOKEN_PATTERN txt)
                (@token_level_ok txt)) as H.
  rewrite <- Hlab in H. apply Forall_map in H. exact H.
Qed.

Lemma Forall_tl {A : Type} (P : A -> Prop) (l : list A) :
  Forall P l -> Forall P (tl l).
Proof. destruct 1; simpl; auto. Qed.

(** X6.  In what the pipeline returns, the table of contents can only be the
    first root: every other node, at any depth, is a node of a marker and
    does not carry the marker "TOC". *)
Theorem toc_only_first (raw_text : str) :
  exists out,
    pipeline raw_text = Returned out
    /\ Forall (fun n => is_toc n = false) (tl (all_nodes out)).
Proof.
  unfold pipeline.
  destruct (parse_labels (normalize_text raw_text)) as (forest & E & _).
  rewrite E. simpl. eexists. split; [reflexivity|].
  pose proof (parsed_nodes_not_toc _ E) as H.
  destruct (flat_prefix_split forest)
    as [Hall|(entries & n & rest & -> & He & Hn)].
  - destruct forest as [|a nodes]; [constructor|].
    rewrite collapse_all_flat by (auto; discriminate).
    unfold all_nodes, toc_node. cbn [flat_map nodes_of tl].
    apply Forall_app. split; exact H.
  - unfold collapse_table_of_contents.
    rewrite (@scan_toc_break entries n rest 0 He Hn).
    destruct entries as [|e entries]; [now apply Forall_tl|].
    cbn [Nat.add]. rewrite skipn_app_exact.
    unfold all_nodes, toc_node. cbn [flat_map nodes_of tl].
    unfold all_nodes in H. rewrite flat_map_app in H. exact H.
Qed.

(** ** The tokenizer *)

(** X7.  Every token the tokenizer produces is one of the four marker
    shapes, and [classify_level] gives it the level of that shape, between
    1 and 4: the default 0 is never the level of a token. *)
Theorem token_is_marker_with_level (txt : str) :
  Forall (fun m => exists l,
              marker_body (strip (m_group m)) l
              /\ classify_level (strip (m_group m)) = Returned l
              /\ (1 <= l <= 4)%Z)
         (finditer TOKEN_PATTERN txt).
Proof.
  apply Forall_forall. intros m Hin.
  apply token_of_match in Hin as (l & Hb). exists l.
  split; [exact Hb|]. split.
  - now apply classify_marker_body.
  - now apply marker_body_level in Hb.
Qed.

Lemma lastp_None (u : str) : lastp None u = None -> u = [].
Proof.
  intros H. destruct u as [|c u]; [reflexivity|].
  destruct (@lastp_in None (c :: u)) as (x & Hx & _); [discriminate|].
  congruence.
Qed.

Lemma lastp_Some (prev : option ascii) (u : str) (c : ascii) :
  u <> [] -> lastp prev u = Some c -> exists u', u = u' ++ [c].
Proof.
  intros Hne H. unfold lastp in H. destruct (rev u) as [|x r] eqn:E.
  - apply (f_equal (@rev ascii)) in E. rewrite rev_involutive in E.
    simpl in E. congruence.
  - inversion H; subst x. exists (rev r).
    rewrite <- (rev_involutive u), E. reflexivity.
Qed.

Lemma token_group_nonempty (txt : str) (m : rmatch_obj) :
  In m (finditer TOKEN_PATTERN txt) -> m_group m <> [].
Proof.
  intros Hin. apply token_group_shape in Hin
    as (ws & body & tail & l & E & _ & _ & Hb).
  apply marker_body_solid in Hb as (a & mid & b & -> & _).
  rewrite E. destruct ws; discriminate.
Qed.

Lemma tiled_ascending (txt : str) (ms : list rmatch_obj) :
  forall lo,
    tiled txt lo ms -> (forall m, In m ms -> m_group m <> []) ->
    ascending (map m_start ms) = true.
Proof.
  induction ms as [|m [|m' rest] IH]; intros lo Ht Hne; try reflexivity.
  inversion Ht as [|lo' m0 ms0 Hlo Hg Hlen Hrest]; subst.
  change (ascending (map m_start (m :: m' :: rest)))
    with ((m_start m <? m_start m')%nat
          && ascending (map m_start (m' :: rest))).
  apply andb_true_intro. split.
  - inversion Hrest; subst. apply Nat.ltb_lt.
    assert (length (m_group m) <> 0).
    { intros E. apply length_zero_iff_nil in E. apply (Hne m); simpl; auto. }
    lia.
  - apply (IH _ Hrest). intros x Hx. apply Hne. now right.
Qed.

(** X8.  The matches of the tokenizer come in strictly rising offsets, and
    each one starts at the start of a line (offset 0 or right after a
    newline), is not empty and ends within the text. *)
Theorem markers_start_lines_in_order (txt : str) :
  ascending (map m_start (finditer TOKEN_PATTERN txt)) = true
  /\ Forall (fun m => at_line_start txt (m_start m) = true
                      /\ m_group m <> []
                      /\ m_start m + length (m_group m) <= length txt)
            (finditer TOKEN_PATTERN txt).
Proof.
  split.
  - apply tiled_ascending with (txt := txt) (lo := 0).
    + apply finditer_tiled.
    + apply token_group_nonempty.
  - apply Forall_forall. intros m Hin.
    split; [|split; [now apply (token_group_nonempty txt)|]].
    + apply finditer_In in Hin as (pre & u & rest & Ht & Hst & _ & M).
      apply token_match_shape in M as ([Hp|Hp] & _).
      * apply lastp_None in Hp. subst pre. simpl in Hst. now rewrite Hst.
      * destruct pre as [|c pre]; [discriminate|].
        destruct (lastp_Some (u := c :: pre) None) with (c := newline)
          as (pre' & Epre); [discriminate|exact Hp|].
        rewrite Hst, Epre, length_app. simpl. rewrite Nat.add_1_r. simpl.
        rewrite Ht, Epre, <- !app_assoc. simpl.
        rewrite nth_error_app2, Nat.sub_diag by lia. reflexivity.
    + apply finditer_In in Hin as (pre & u & rest & Ht & Hst & Hg & _).
      rewrite Hst, Hg, Ht, !length_app. lia.
Qed.

(** ** Substitution, match by match *)

Lemma span_split (p : ascii -> bool) (s : str) :
  exists u r, s = u ++ r /\ forallb p u = true
              /\ match r with [] => True | c :: _ => p c = false end.
Proof.
  induction s as [|c s IH].
  - exists [], []. auto.
  - destruct (p c) eqn:E.
    + destruct IH as (u & r & -> & Hu & Hr).
      exists (c :: u), r. simpl. rewrite E, Hu. auto.
    + exists [], (c :: s). auto.
Qed.

(** After a match the characters it covers are passed over. *)
Lemma sub_from_skip (r : re) (repl : caps -> str) (u : str) :
  forall prev rest,
    sub_from r repl prev (u ++ rest) (length u)
    = sub_from r repl (lastp prev u) rest 0.
Proof.
  induction u as [|c u IH]; intros prev rest; [reflexivity|].
  simpl. rewrite IH, lastp_cons. reflexivity.
Qed.

(** A match of [HYPHEN_BREAK] has one form only: the run of word characters
    from the current position, the break, and the whole run after it. *)
Lemma hyphen_match_inv (prev : option ascii) (s : str) (n : nat) (cs : caps) :
  match_here HYPHEN_BREAK prev s = Some (n, cs) ->
  exists a u d v rest,
    s = (a :: u) ++ "-" :: newline :: (d :: v) ++ rest
    /\ is_word a = true /\ forallb is_word u = true
    /\ is_word d = true /\ forallb is_word v = true
    /\ match rest with [] => True | c :: _ => is_word c = false end
    /\ n = length (a :: u) + 2 + length (d :: v)
    /\ cs = [(2, d :: v); (1, a :: u)].
Proof.
  intros H. pose proof H as H0.
  apply match_here_sound in H0 as (w & s' & -> & _ & M).
  unfold HYPHEN_BREAK in M. simpl in M.
  destruct M as (u1 & g2 & -> & (u2 & u3 & -> & (g1 & u4 & -> & [Hne1 Hg1] & ->) & ->) & [Hne2 Hg2]).
  destruct g1 as [|a u]; [congruence|]. destruct g2 as [|d g2]; [congruence|].
  simpl in Hg1, Hg2.
  apply andb_prop in Hg1 as [Ha Hu]. apply andb_prop in Hg2 as [Hd Hg2].
  destruct (span_split is_word (g2 ++ s')) as (v & rest & Et & Hv & Hr).
  assert (Es : ((((a :: u) ++ ["-"]) ++ [newline]) ++ d :: g2) ++ s'
               = (a :: u) ++ "-" :: newline :: (d :: v) ++ rest).
  { rewrite <- !app_assoc. simpl. rewrite <- Et. reflexivity. }
  rewrite Es in H |- *.
  rewrite (@hyphen_match prev a u d v rest Ha Hu Hd Hv Hr) in H.
  inversion H; subst.
  exists a, u, d, v, rest. repeat split; auto.
Qed.

(** One step of the de-hyphenation at a match. *)
Lemma dehyphenate_step (prev : option ascii) (a : ascii) (u : str)
      (d : ascii) (v rest : str) :
  is_word a = true -> forallb is_word u = true ->
  is_word d = true -> forallb is_word v = true ->
  match rest with [] => True | c :: _ => is_word c = false end ->
  exists prev',
    sub_from HYPHEN_BREAK (fun cs => group 1 cs ++ group 2 cs) prev
             ((a :: u) ++ "-" :: newline :: (d :: v) ++ rest) 0
    = (a :: u) ++ (d :: v)
      ++ sub_from HYPHEN_BREAK (fun cs => group 1 cs ++ group 2 cs) prev'
                  rest 0.
Proof.
  intros Ha Hu Hd Hv Hr.
  pose proof (@hyphen_match prev a u d v rest Ha Hu Hd Hv Hr) as E.
  cbn [app] in E. cbn [app sub_from]. rewrite E.
  replace (length (a :: u) + 2 + length (d :: v))
    with (S (length (u ++ "-" :: newline :: d :: v)))
    by (rewrite length_app; simpl; lia).
  replace (u ++ "-" :: newline :: d :: v ++ rest)
    with ((u ++ "-" :: newline :: d :: v) ++ rest)
    by (rewrite <- app_assoc; reflexivity).
  rewrite sub_from_skip. eexists. cbn [group Nat.eqb]. 
  rewrite <- app_assoc. reflexivity.
Qed.

Lemma dehyphenate_from_length (n : nat) :
  forall s prev,
    length s <= n ->
    length (sub_from HYPHEN_BREAK (fun cs => group 1 cs ++ group 2 cs)
                     prev s 0) <= length s.
Proof.
  induction n as [|n IH]; intros s prev Hn.
  - destruct s; [|simpl in Hn; lia]. simpl. lia.
  - destruct s as [|c s]; [simpl; lia|].
    destruct (match_here HYPHEN_BREAK prev (c :: s)) as [[k cs]|] eqn:E.
    + apply hyphen_match_inv in E
        as (a & u & d & v & rest & Es & Ha & Hu & Hd & Hv & Hr & _ & _).
      destruct (dehyphenate_step prev a u d v rest Ha Hu Hd Hv Hr)
        as (prev' & Eq).
      rewrite Es, Eq. rewrite Es in Hn.
      repeat (rewrite ?length_app; cbn [length] in * ).
      specialize (IH rest prev'). rewrite !length_app in Hn.
      cbn [length] in Hn. rewrite length_app in Hn. lia.
    + cbn [sub_from]. rewrite E. cbn [length].
      specialize (IH s (Some c)). simpl in Hn. lia.
Qed.

Lemma hyphen_match_complete (prev : option ascii) (c d : ascii) (t : str) :
  is_word c = true -> is_word d = true ->
  match_here HYPHEN_BREAK prev (c :: "-" :: newline :: d :: t) <> None.
Proof.
  intros Hc Hd.
  destruct (span_split is_word t) as (v & rest & -> & Hv & Hr).
  pose proof (@hyphen_match prev c [] d v rest Hc eq_refl Hd Hv Hr) as E.
  simpl in E. simpl. rewrite E. discriminate.
Qed.

Lemma dehyphenate_from_shorter (s : str) :
  has_break s = true ->
  forall prev,
    length (sub_from HYPHEN_BREAK (fun cs => group 1 cs ++ group 2 cs)
                     prev s 0) < length s.
Proof.
  induction s as [|c s IH]; intros H prev; [discriminate|].
  destruct (match_here HYPHEN_BREAK prev (c :: s)) as [[k cs]|] eqn:E.
  - apply hyphen_match_inv in E
      as (a & u & d & v & rest & Es & Ha & Hu & Hd & Hv & Hr & _ & _).
    destruct (dehyphenate_step prev a u d v rest Ha Hu Hd Hv Hr)
      as (prev' & Eq).
    rewrite Es, Eq.
    pose proof (@dehyphenate_from_length (length rest) rest prev' (le_n _)).
    repeat (rewrite ?length_app; cbn [length]). lia.
  - cbn [sub_from]. rewrite E. cbn [length].
    cbn [has_break] in H. apply orb_prop in H as [H|H].
    + apply andb_prop in H as [Hc H].
      destruct s as [|x [|y [|d t]]]; try discriminate.
      apply andb_prop in H as [H Hd]. apply andb_prop in H as [Hx Hy].
      apply Ascii.eqb_eq in Hx, Hy. subst x y.
      exfalso. now apply (@hyphen_match_complete prev c d t Hc Hd).
    + specialize (IH H (Some c)). lia.
Qed.

(** X9.  The de-hyphenation changes a text exactly when it holds, somewhere,
    a word character, a hyphen, a newline and a word character in a row. *)
Theorem dehyphenate_fixpoint_iff (s : str) :
  dehyphenate s = s <-> has_break s = false.
Proof.
  split.
  - intros E. destruct (has_break s) eqn:H; [|reflexivity].
    pose proof (dehyphenate_from_shorter s H None) as Hlt.
    unfold dehyphenate, re_sub in E. rewrite E in Hlt. lia.
  - apply dehyphenate_unchanged.
Qed.

(** ** Blanks after normalisation *)

Lemma blanks_match (prev : option ascii) (c : ascii) (u r : str) :
  is_blank c = true -> forallb is_blank u = true ->
  match r with [] => True | x :: _ => is_blank x = false end ->
  match_here BLANKS prev (c :: u ++ r) = Some (S (length u), []).
Proof.
  intros Hc Hu Hr. unfold match_here, BLANKS. cbn [rmatch]. rewrite Hc.
  apply star_greedy; auto.
  f_equal. f_equal. cbn [length]. rewrite length_app. lia.
Qed.

Lemma blanks_no_match (prev : option ascii) (s : str) :
  match s with [] => True | x :: _ => is_blank x = false end ->
  match_here BLANKS prev s = None.
Proof.
  intros H. unfold match_here, BLANKS. cbn [rmatch].
  destruct s as [|x s]; [reflexivity|]. now rewrite H.
Qed.

(** The substitution of [[ \t]+] by one space leaves neither a tab nor two
    spaces in a row, and a text that begins with a character that is not
    blank still begins with it. *)
Lemma squeeze_from (n : nat) :
  forall s prev,
    length s <= n ->
    let out := sub_from BLANKS (fun _ => L " ") prev s 0 in
    squeezed out = true
    /\ match s with
       | [] => out = []
       | x :: _ => is_blank x = false -> exists t, out = x :: t
       end.
Proof.
  induction n as [|n IH]; intros s prev Hn; cbv zeta.
  - destruct s; [|simpl in Hn; lia]. simpl. auto.
  - destruct s as [|c s]; [simpl; auto|].
    destruct (is_blank c) eqn:Hc.
    + destruct (span_split is_blank s) as (u & r & -> & Hu & Hr).
      cbn [sub_from]. rewrite (blanks_match prev c u r Hc Hu Hr).
      rewrite sub_from_skip.
      assert (Hlen : length r <= n).
      { simpl in Hn. rewrite length_app in Hn. lia. }
      destruct (IH r (lastp (Some c) u) Hlen) as [Hsq Hhd].
      split; [|discriminate].
      change (L " " ++ sub_from BLANKS (fun _ => L " ") (lastp (Some c) u) r 0)
        with (" " :: sub_from BLANKS (fun _ => L " ") (lastp (Some c) u) r 0).
      cbn [squeezed]. rewrite Hsq.
      destruct r as [|x r].
      * rewrite Hhd. reflexivity.
      * destruct (Hhd Hr) as (t & ->).
        replace (Ascii.eqb x " ") with false; [reflexivity|].
        symmetry. apply not_true_is_false. intros Ex.
        apply Ascii.eqb_eq in Ex. subst x. discriminate.
    + cbn [sub_from]. rewrite (blanks_no_match prev (c :: s) Hc).
      assert (Hlen : length s <= n) by (simpl in Hn; lia).
      destruct (IH s (Some c) Hlen) as [Hsq _].
      split; [|eauto].
      cbn [squeezed]. rewrite Hsq.
      replace (Ascii.eqb c tab) with false.
      2:{ symmetry. apply not_true_is_false. intros Ex.
          apply Ascii.eqb_eq in Ex. subst c. discriminate. }
      replace (Ascii.eqb c " ") with false.
      2:{ symmetry. apply not_true_is_false. intros Ex.
          apply Ascii.eqb_eq in Ex. subst c. discriminate. }
      destruct (sub_from BLANKS _ (Some c) s 0); reflexivity.
Qed.

Lemma squeezed_app (x y : str) :
  squeezed (x ++ y) = true -> squeezed x = true /\ squeezed y = true.
Proof.
  induction x as [|c x IH]; intros H; [auto|].
  change ((c :: x) ++ y) with (c :: (x ++ y)) in H. cbn [squeezed] in H.
  apply andb_prop in H as [H Hs]. apply andb_prop in H as [Ht Ha].
  destruct (IH Hs) as [Hx Hy]. split; [|exact Hy].
  cbn [squeezed]. rewrite Ht, Hx.
  destruct x as [|d x]; [reflexivity|]. simpl in Ha. now rewrite Ha.
Qed.

Lemma squeezed_strip (s : str) : squeezed s = true -> squeezed (strip s) = true.
Proof.
  intros H. unfold strip.
  destruct (lstrip_split s) as (ws & _ & Es & _).
  rewrite Es in H. apply squeezed_app in H as [_ H].
  destruct (rstrip_split (lstrip s)) as (ws' & _ & Er & _).
  rewrite Er in H. now apply squeezed_app in H as [H _].
Qed.

(** What [strip] returns has nothing left to trim. *)
Lemma strip_strip (s : str) : strip (strip s) = strip s.
Proof.
  unfold strip at 2 3.
  destruct (lstrip_split s) as (_ & _ & _ & Hl).
  destruct (rstrip_split (lstrip s)) as (ws & _ & Er & Hr).
  destruct Hr as [E|(t & b & E & Hb)].
  - rewrite E. reflexivity.
  - rewrite E. unfold strip.
    assert (Hhead : lstrip (t ++ [b]) = t ++ [b]).
    { destruct Hl as [El|(a & t' & El & Ha)].
      - rewrite El in E. unfold rstrip in E. simpl in E.
        destruct t; discriminate.
      - rewrite E in Er. rewrite El in Er.
        destruct t as [|a' t].
        + simpl. now rewrite Hb.
        + simpl in Er. inversion Er; subst a'. simpl. now rewrite Ha. }
    rewrite Hhead. now apply rstrip_solid.
Qed.

(** X10.  What [normalize_text] returns has no white space at either end,
    no tab and no two spaces in a row. *)
Theorem normalize_text_trimmed_and_squeezed (raw_text : str) :
  strip (normalize_text raw_text) = normalize_text raw_text
  /\ squeezed (normalize_text raw_text) = true.
Proof.
  unfold normalize_text. split.
  - apply strip_strip.
  - apply squeezed_strip. unfold re_sub.
    exact (proj1 (@squeeze_from _ _ None (le_n _))).
Qed.

Lemma spans_trimmed (txt : str) (ms : list rmatch_obj) :
  Forall (fun x => strip (fst x) = fst x /\ strip (snd x) = snd x)
         (spans txt ms).
Proof.
  induction ms as [|m ms IH]; cbn [spans]; constructor; [|exact IH].
  cbn [fst snd]. split; apply strip_strip.
Qed.

(** X11.  In the forest of every text the marker and the text of every node
    are trimmed: neither begins or ends with white space. *)
Theorem node_fields_trimmed (txt : str) :
  exists forest,
    parse_legal_structure txt = Returned forest
    /\ Forall (fun n => strip (marker n) = marker n
                        /\ strip (text n) = text n)
              (all_nodes forest).
Proof.
  destruct (parse_labels txt) as (forest & E & Hlab).
  exists forest. split; [exact E|].
  pose proof (spans_trimmed txt (finditer TOKEN_PATTERN txt)) as H.
  rewrite <- Hlab in H. apply Forall_map in H. exact H.
Qed.

(** ** The matcher finds a match where there is one *)

Lemma star_complete {A : Type} (p : ascii -> bool) (u : str) :
  forall (prev : option ascii) (s : str) (cs : caps)
         (k : option ascii -> str -> caps -> option A),
    forallb p u = true ->
    k (lastp prev u) s cs <> None ->
    star p prev (u ++ s) cs k <> None.
Proof.
  induction u as [|a u IH]; intros prev s cs k Hu Hk.
  - simpl. destruct s as [|c s]; simpl; [exact Hk|].
    destruct (p c); [|exact Hk].
    destruct (star p (Some c) s cs k); [discriminate|exact Hk].
  - simpl in Hu. apply andb_prop in Hu as [Ha Hu].
    simpl. rewrite Ha. rewrite lastp_cons in Hk.
    specialize (IH (Some a) s cs k Hu Hk).
    destruct (star p (Some a) (u ++ s) cs k); [discriminate|congruence].
Qed.

Lemma rmatch_complete (r : re) :
  forall (A : Type) (prev : option ascii) (u s : str) (cs : caps)
         (k : option ascii -> str -> caps -> option A),
    matches r prev u s ->
    (forall cs', k (lastp prev u) s cs' <> None) ->
    rmatch r prev (u ++ s) cs k <> None.
Proof.
  induction r as [ |c|p|p|p|r1 IH1 r2 IH2|r1 IH1 r2 IH2| | |r1 IH1|i r1 IH1];
    intros A prev u s cs k M Hk; simpl in M.
  - subst u. simpl. apply Hk.
  - subst u. simpl. rewrite Ascii.eqb_refl. apply Hk.
  - destruct M as (c & -> & Hc). simpl. rewrite Hc. apply Hk.
  - simpl. apply star_complete; auto.
  - destruct M as [Hne Hu]. destruct u as [|a u]; [congruence|].
    simpl in Hu. apply andb_prop in Hu as [Ha Hu].
    simpl. rewrite Ha. apply star_complete; auto.
    rewrite <- (lastp_cons prev). apply Hk.
  - destruct M as (u1 & u2 & -> & M1 & M2). simpl.
    rewrite <- app_assoc. apply IH1; auto.
    intros cs'. apply IH2; auto.
    intros cs''. rewrite <- lastp_app. apply Hk.
  - simpl. destruct M as [M|M].
    + specialize (IH1 A prev u s cs k M Hk).
      destruct (rmatch r1 prev (u ++ s) cs k); [discriminate|congruence].
    + destruct (rmatch r1 prev (u ++ s) cs k); [discriminate|].
      apply IH2; auto.
  - destruct M as [-> ->]. simpl. apply Hk.
  - destruct M as [-> [->| ->]]; simpl; apply Hk.
  - destruct M as (-> & v & w & -> & M). simpl.
    assert (H : rmatch r1 prev (v ++ w) cs (fun _ _ cs' => Some cs') <> None).
    { apply IH1; auto. discriminate. }
    destruct (rmatch r1 prev (v ++ w) cs (fun _ _ cs' => Some cs'));
      [apply Hk|congruence].
  - simpl. apply IH1; auto.
Qed.

Lemma re_match_complete (r : re) (u s : str) :
  matches r None u s -> re_match r (u ++ s) = true.
Proof.
  intros M. unfold re_match, match_here.
  pose proof (@rmatch_complete r _ None u s []
                (fun _ s' cs => Some (length (u ++ s) - length s', cs)) M) as H.
  destruct (rmatch r None (u ++ s) [] _); [reflexivity|].
  exfalso. apply H; [discriminate|reflexivity].
Qed.

Lemma re_match_sound (r : re) (s : str) :
  re_match r s = true -> exists u s', s = u ++ s' /\ matches r None u s'.
Proof.
  unfold re_match. intros H.
  destruct (match_here r None s) as [[n cs]|] eqn:E; [|discriminate].
  apply match_here_sound in E as (u & s' & -> & _ & M). eauto.
Qed.

Lemma matches_lit_intro (s : str) :
  forall prev rest, matches (lit s) prev s rest.
Proof.
  induction s as [|c s IH]; intros prev rest; simpl; [reflexivity|].
  exists [c], s. repeat split. apply IH.
Qed.

(** [LINE_MARKER] matches a text exactly when it begins with a marker. *)
Lemma line_marker_iff (p : str) :
  re_match LINE_MARKER p = true <-> starts_marker p.
Proof.
  split.
  - intros H. apply re_match_sound in H as (u & s' & -> & M).
    unfold LINE_MARKER in M. cbn [matches] in M.
    destruct M as (u1 & u2 & -> & (-> & _) & [M|[M|[M|M]]]).
    + destruct M as (v1 & v2 & -> & (v3 & v4 & -> & (v5 & v6 & -> & H5 & Hsp) & Hds) & ->).
      apply (matches_lit (L "Section")) in H5. subst v5.
      destruct Hsp as [Hsp1 Hsp2]. destruct Hds as [Hds1 Hds2].
      exists (L "Section" ++ v6 ++ v4 ++ ["."]), 1%Z, s'. split.
      * app_norm.
      * now constructor.
    + destruct M as (v1 & v2 & -> & (c & -> & Hc) & ->).
      exists [c; "."], 2%Z, s'. split; [reflexivity|now constructor].
    + destruct M as (v1 & v2 & -> & (v3 & v4 & -> & -> & [Hds1 Hds2]) & ->).
      exists ("(" :: v4 ++ [")"]), 3%Z, s'. split; [app_norm|now constructor].
    + destruct M as (v1 & v2 & -> & (v3 & v4 & -> & -> & (c & -> & Hc)) & ->).
      exists ["("; c; ")"], 4%Z, s'. split; [reflexivity|now constructor].
  - intros (body & l & rest & -> & Hb). apply re_match_complete.
    unfold LINE_MARKER. cbn [matches].
    exists [], body. split; [reflexivity|]. split; [auto|].
    destruct Hb as [sp ds Hsp1 Hsp2 Hds1 Hds2|c Hc|ds Hds1 Hds2|c Hc].
    + left. exists (L "Section" ++ sp ++ ds), ["."].
      split; [app_norm|]. split; [|reflexivity].
      exists (L "Section" ++ sp), ds. split; [app_norm|]. split; [|auto].
      exists (L "Section"), sp. split; [reflexivity|]. split; [|auto].
      apply (matches_lit_intro (L "Section")).
    + right. left. exists [c], ["."]. repeat split. exists c. auto.
    + right. right. left. exists ("(" :: ds), [")"].
      split; [app_norm|]. split; [|reflexivity].
      exists ["("], ds. repeat split; auto.
    + right. right. right. exists ["("; c], [")"].
      split; [reflexivity|]. split; [|reflexivity].
      exists ["("], [c]. repeat split. exists c. auto.
Qed.

(** ** [squeeze], piece by piece *)

Lemma squeeze_from_indep (s : str) (prev prev' : option ascii) :
  sub_from BLANKS (fun _ => L " ") prev s 0
  = sub_from BLANKS (fun _ => L " ") prev' s 0.
Proof.
  destruct s as [|c s]; [reflexivity|].
  destruct (is_blank c) eqn:Hc.
  - destruct (span_split is_blank s) as (u & r & -> & Hu & Hr).
    cbn [sub_from]. rewrite !(blanks_match _ c u r Hc Hu Hr).
    reflexivity.
  - cbn [sub_from]. rewrite !(blanks_no_match _ (c :: s) Hc). reflexivity.
Qed.

Lemma squeeze_solid (c : ascii) (s : str) :
  is_blank c = false -> squeeze (c :: s) = c :: squeeze s.
Proof.
  intros Hc. unfold squeeze, re_sub. cbn [sub_from].
  rewrite (blanks_no_match None (c :: s) Hc). f_equal.
  apply squeeze_from_indep.
Qed.

Lemma squeeze_run (c : ascii) (u r : str) :
  is_blank c = true -> forallb is_blank u = true ->
  match r with [] => True | x :: _ => is_blank x = false end ->
  squeeze (c :: u ++ r) = " " :: squeeze r.
Proof.
  intros Hc Hu Hr. unfold squeeze, re_sub. cbn [sub_from].
  rewrite (blanks_match None c u r Hc Hu Hr), sub_from_skip.
  change (L " " ++ ?x) with (" " :: x). f_equal.
  apply squeeze_from_indep.
Qed.

Lemma squeeze_app_n (n : nat) :
  forall x y,
    length x <= n ->
    match y with [] => True | c :: _ => is_blank c = false end ->
    squeeze (x ++ y) = squeeze x ++ squeeze y.
Proof.
  induction n as [|n IH]; intros x y Hn Hy.
  - destruct x; [reflexivity|simpl in Hn; lia].
  - destruct x as [|c x]; [reflexivity|].
    destruct (is_blank c) eqn:Hc.
    + destruct (span_split is_blank x) as (u & r & -> & Hu & Hr).
      assert (Hlen : length r <= n).
      { simpl in Hn. rewrite length_app in Hn. lia. }
      replace ((c :: u ++ r) ++ y) with (c :: u ++ (r ++ y))
        by (simpl; now rewrite <- app_assoc).
      rewrite squeeze_run, (squeeze_run c u r), (IH r y); auto.
      destruct r; simpl; auto.
    + simpl in Hn. change ((c :: x) ++ y) with (c :: (x ++ y)).
      rewrite !squeeze_solid by assumption.
      rewrite (IH x y) by (auto; lia). reflexivity.
Qed.

(** [squeeze] works on each side of a character that is not blank. *)
Lemma squeeze_app (x y : str) :
  match y with [] => True | c :: _ => is_blank c = false end ->
  squeeze (x ++ y) = squeeze x ++ squeeze y.
Proof. intros H. now apply (@squeeze_app_n (length x)). Qed.

Lemma squeeze_app_after (t : str) (b : ascii) (y : str) :
  is_blank b = false ->
  squeeze ((t ++ [b]) ++ y) = squeeze (t ++ [b]) ++ squeeze y.
Proof.
  intros Hb. rewrite <- app_assoc. simpl.
  rewrite !(squeeze_app t) by (simpl; assumption).
  rewrite !squeeze_solid by assumption.
  rewrite <- app_assoc. reflexivity.
Qed.

Lemma squeeze_id (s : str) :
  forallb (fun c => negb (is_blank c)) s = true -> squeeze s = s.
Proof.
  induction s as [|c s IH]; intros H; [reflexivity|].
  simpl in H. apply andb_prop in H as [Hc Hs].
  apply negb_true_iff in Hc. rewrite squeeze_solid by assumption.
  now rewrite IH.
Qed.

Lemma squeeze_chars_n (n : nat) :
  forall s c, length s <= n -> In c (squeeze s) -> c = " " \/ In c s.
Proof.
  induction n as [|n IH]; intros s c Hn Hin.
  - destruct s; [contradiction|simpl in Hn; lia].
  - destruct s as [|a s]; [contradiction|].
    destruct (is_blank a) eqn:Ha.
    + destruct (span_split is_blank s) as (u & r & -> & Hu & Hr).
      rewrite squeeze_run in Hin by assumption.
      destruct Hin as [<-|Hin]; [now left|].
      apply IH in Hin.
      * destruct Hin as [->|Hin]; [now left|].
        right. right. apply in_or_app. now right.
      * simpl in Hn. rewrite length_app in Hn. lia.
    + rewrite squeeze_solid in Hin by assumption.
      destruct Hin as [<-|Hin]; [right; now left|].
      apply IH in Hin; [|simpl in Hn; lia].
      destruct Hin as [->|Hin]; [now left|]. right. now right.
Qed.

Lemma squeeze_chars (s : str) (c : ascii) :
  In c (squeeze s) -> c = " " \/ In c s.
Proof. now apply (@squeeze_chars_n (length s)). Qed.

Lemma squeeze_nonempty (s : str) : s <> [] -> squeeze s <> [].
Proof.
  destruct s as [|c s]; [congruence|]. intros _.
  destruct (is_blank c) eqn:Hc.
  - destruct (span_split is_blank s) as (u & r & -> & Hu & Hr).
    rewrite squeeze_run by assumption. discriminate.
  - rewrite squeeze_solid by assumption. discriminate.
Qed.

Lemma blank_is_space (c : ascii) : is_blank c = true -> is_space c = true.
Proof. ascii_cases c. Qed.

Lemma solid_not_blank (c : ascii) : is_space c = false -> is_blank c = false.
Proof.
  intros H. destruct (is_blank c) eqn:E; [|reflexivity].
  apply blank_is_space in E. congruence.
Qed.

Lemma squeeze_spaces (s : str) :
  forallb is_space s = true -> forallb is_space (squeeze s) = true.
Proof.
  intros H. apply forallb_forall. intros c Hc.
  apply squeeze_chars in Hc as [->|Hc]; [reflexivity|].
  rewrite forallb_forall in H. auto.
Qed.

(** Squeezing keeps a marker at the start of a text a marker. *)
Lemma squeeze_marker (body : str) (l : Z) (rest : str) :
  marker_body body l ->
  exists body', marker_body body' l
                /\ squeeze (body ++ rest) = body' ++ squeeze rest.
Proof.
  intros Hb. destruct Hb as [sp ds Hsp1 Hsp2 Hds1 Hds2|c Hc|ds Hds1 Hds2|c Hc].
  - exists (L "Section" ++ squeeze sp ++ ds ++ ["."]). split.
    + constructor; auto.
      * now apply squeeze_nonempty.
      * now apply squeeze_spaces.
    + destruct ds as [|d ds]; [congruence|]. simpl in Hds2.
      apply andb_prop in Hds2 as [Hd Hds2].
      assert (Hdb : is_blank d = false).
      { apply solid_not_blank. revert Hd. clear. ascii_cases d. }
      replace ((L "Section" ++ sp ++ (d :: ds) ++ ["."]) ++ rest)
        with (L "Section" ++ sp ++ (((d :: ds) ++ ["."]) ++ rest))
        by (now rewrite <- !app_assoc).
      cbn [L list_ascii_of_string app].
      rewrite !squeeze_solid by reflexivity.
      rewrite (squeeze_app sp) by (simpl; exact Hdb).
      change (d :: (ds ++ ["."]) ++ rest) with (((d :: ds) ++ ["."]) ++ rest).
      rewrite squeeze_app_after by reflexivity.
      rewrite (squeeze_id ((d :: ds) ++ ["."])).
      * app_norm.
      * rewrite forallb_app. simpl. rewrite Hdb. simpl.
        rewrite andb_true_r. apply forallb_forall. intros x Hx.
        rewrite forallb_forall in Hds2. specialize (Hds2 x Hx).
        apply negb_true_iff, solid_not_blank. revert Hds2. clear. ascii_cases x.
  - exists [c; "."]. split; [now constructor|].
    assert (Hcb : is_blank c = false).
    { apply solid_not_blank. now apply upper_not_space. }
    simpl. now rewrite !squeeze_solid.
  - exists ("(" :: ds ++ [")"]). split; [now constructor|].
    change (("(" :: ds ++ [")"]) ++ rest) with ((("(" :: ds) ++ [")"]) ++ rest).
    rewrite squeeze_app_after by reflexivity.
    rewrite (squeeze_id (("(" :: ds) ++ [")"])); [reflexivity|].
    simpl. rewrite forallb_app. simpl. rewrite andb_true_r.
    apply forallb_forall. intros x Hx.
    rewrite forallb_forall in Hds2. specialize (Hds2 x Hx).
    apply negb_true_iff, solid_not_blank. revert Hds2. clear. ascii_cases x.
  - exists ["("; c; ")"]. split; [now constructor|].
    assert (Hcb : is_blank c = false).
    { revert Hc. clear. ascii_cases c. }
    simpl. now rewrite !squeeze_solid.
Qed.

(** ** The paragraphs behind [rebuilt] *)

Lemma decorate_app (b : bool) (p x : str) :
  decorate (b, p ++ x) = decorate (b, p) ++ x.
Proof. destruct b; reflexivity. Qed.

Lemma extend_last_snoc (init : list str) (l x : str) :
  extend_last (init ++ [l]) x = init ++ [l ++ x].
Proof.
  unfold extend_last. now rewrite removelast_last, last_last.
Qed.

Lemma extend_para_snoc (init : list (bool * str)) (l : bool * str) (x : str) :
  extend_para (init ++ [l]) x = init ++ [(fst l, snd l ++ x)].
Proof.
  unfold extend_para. now rewrite removelast_last, last_last.
Qed.

Lemma rebuild_decorate_step (paras : list (bool * str)) (line : str) :
  rebuild_line (map decorate paras) line = map decorate (para_step paras line).
Proof.
  unfold rebuild_line, para_step. cbv zeta.
  destruct (strip line) as [|c s] eqn:Es; [reflexivity|].
  destruct (re_match LINE_MARKER (c :: s)).
  - rewrite map_app. reflexivity.
  - destruct paras as [|p paras]; [reflexivity|].
    destruct (exists_last (l := p :: paras)) as (init & l & E); [discriminate|].
    cbn [map]. change (decorate p :: map decorate paras)
      with (map decorate (p :: paras)).
    rewrite E, map_app. cbn [map].
    rewrite extend_last_snoc, extend_para_snoc, map_app. cbn [map].
    destruct l as [b q]. cbn [fst snd]. now rewrite decorate_app.
Qed.

Lemma rebuilt_decorate (lines : list str) :
  forall paras,
    fold_left rebuild_line lines (map decorate paras)
    = map decorate (fold_left para_step lines paras).
Proof.
  induction lines as [|l lines IH]; intros paras; [reflexivity|].
  cbn [fold_left]. rewrite rebuild_decorate_step. apply IH.
Qed.

(** ** Lines and trimming *)

Lemma no_newline_app (x y : str) :
  no_newline (x ++ y) = no_newline x && no_newline y.
Proof. apply forallb_app. Qed.

Lemma split_lines_no_newline (s : str) :
  Forall (fun l => no_newline l = true) (split newline s).
Proof.
  induction s as [|c s IH]; simpl.
  - repeat constructor.
  - destruct (Ascii.eqb c newline) eqn:E.
    + constructor; [reflexivity|exact IH].
    + destruct (split newline s) as [|l ls]; [repeat constructor; simpl; now rewrite E|].
      inversion IH; subst. constructor; auto.
      simpl. unfold no_newline in *. simpl. now rewrite E.
Qed.

Lemma strip_no_newline (s : str) :
  no_newline s = true -> no_newline (strip s) = true.
Proof.
  intros H. unfold strip.
  destruct (lstrip_split s) as (ws & _ & Es & _).
  rewrite Es, no_newline_app in H. apply andb_prop in H as [_ H].
  destruct (rstrip_split (lstrip s)) as (ws' & _ & Er & _).
  rewrite Er, no_newline_app in H. now apply andb_prop in H as [H _].
Qed.

Lemma strip_solid_ends (s : str) : strip s <> [] -> solid_ends (strip s).
Proof.
  intros Hne. unfold strip in *.
  destruct (lstrip_split s) as (_ & _ & _ & Hl).
  destruct (rstrip_split (lstrip s)) as (ws & _ & Er & Hr).
  destruct Hr as [E|(t & b & E & Hb)]; [congruence|].
  split; [|eauto].
  destruct Hl as [El|(a & t' & El & Ha)].
  - rewrite El in E. unfold rstrip in E. simpl in E. destruct t; discriminate.
  - rewrite E in Er. rewrite El in Er. rewrite E.
    destruct t as [|a' t]; simpl in *.
    + inversion Er; subst. eauto.
    + inversion Er; subst. eauto.
Qed.

Lemma strip_of_solid (ws s : str) :
  forallb is_space ws = true -> solid_ends s -> strip (ws ++ s) = s.
Proof.
  intros Hws [(a & t & -> & Ha) (t' & b & E & Hb)]. unfold strip.
  rewrite lstrip_spaces, lstrip_solid by assumption.
  rewrite E. now apply rstrip_solid.
Qed.

Lemma strip_solid_id (s : str) : solid_ends s -> strip s = s.
Proof. intros S. exact (@strip_of_solid [] s eq_refl S). Qed.

Lemma split_at_newline (x y : str) :
  no_newline x = true -> split newline (x ++ newline :: y) = x :: split newline y.
Proof.
  induction x as [|c x IH]; intros H; simpl.
  - reflexivity.
  - unfold no_newline in H. simpl in H. apply andb_prop in H as [Hc Hx].
    apply negb_true_iff in Hc. rewrite Hc.
    change ((fix app (l m : list ascii) {struct l} : list ascii :=
               match l with [] => m | a :: l1 => a :: app l1 m end)
              x (newline :: y)) with (x ++ newline :: y).
    now rewrite (IH Hx).
Qed.

Lemma split_newline_head (y : str) :
  split newline (newline :: y) = [] :: split newline y.
Proof. reflexivity. Qed.

Lemma split_one_line (x : str) :
  no_newline x = true -> split newline x = [x].
Proof.
  induction x as [|c x IH]; intros H; simpl; [reflexivity|].
  unfold no_newline in H. simpl in H. apply andb_prop in H as [Hc Hx].
  apply negb_true_iff in Hc. rewrite Hc. now rewrite (IH Hx).
Qed.

(** ** The paragraph invariant *)

Lemma solid_ends_nonempty (s : str) : solid_ends s -> nonempty s = true.
Proof. intros [(a & t & -> & _) _]. reflexivity. Qed.

Lemma solid_ends_app (x m y : str) :
  solid_ends x -> solid_ends y -> solid_ends (x ++ m ++ y).
Proof.
  intros [(a & t & -> & Ha) _] [_ (t' & b & -> & Hb)]. split.
  - exists a, (t ++ m ++ t' ++ [b]). split; [reflexivity|exact Ha].
  - exists ((a :: t) ++ m ++ t'), b. split; [app_norm|exact Hb].
Qed.

Lemma starts_marker_app (p x : str) : starts_marker p -> starts_marker (p ++ x).
Proof.
  intros (body & l & rest & -> & M). exists body, l, (rest ++ x).
  split; [app_norm|exact M].
Qed.

Lemma para_step_ok (paras : list (bool * str)) (line : str) :
  no_newline line = true -> paras_ok paras -> paras_ok (para_step paras line).
Proof.
  intros Hl [Hg Hf]. unfold para_step. cbv zeta.
  pose proof (strip_no_newline line Hl) as Hn.
  destruct (strip line) as [|c s] eqn:Es; [now split|].
  assert (Hs : solid_ends (c :: s)).
  { rewrite <- Es. apply strip_solid_ends. rewrite Es. discriminate. }
  destruct (re_match LINE_MARKER (c :: s)) eqn:Em.
  - split.
    + apply Forall_app. split; [exact Hg|]. constructor; [|constructor].
      split; [exact Hn|]. split; [exact Hs|]. intros _. now apply line_marker_iff.
    + destruct paras as [|p paras]; [constructor|].
      cbn [app tl] in *. apply Forall_app. split; [exact Hf|].
      constructor; [reflexivity|constructor].
  - destruct paras as [|p paras].
    + split; [|constructor]. constructor; [|constructor].
      split; [exact Hn|]. split; [exact Hs|]. discriminate.
    + destruct (exists_last (l := p :: paras)) as (init & l & E); [discriminate|].
      rewrite E in *. rewrite extend_para_snoc.
      apply Forall_app in Hg as [Hgi Hgl]. inversion Hgl as [|? ? Hgl' _]; subst.
      destruct Hgl' as (N & S & M). split.
      * apply Forall_app. split; [exact Hgi|]. constructor; [|constructor].
        unfold good_para. cbn [fst snd]. split; [|split].
        -- rewrite !no_newline_app, N. cbn [andb]. now rewrite Hn.
        -- change (snd l ++ L " " ++ c :: s) with (snd l ++ [" "] ++ c :: s).
           now apply solid_ends_app.
        -- intros F. apply starts_marker_app. now apply M.
      * destruct init as [|i init]; [constructor|].
        cbn [app tl] in *. apply Forall_app in Hf as [Hfi Hfl].
        apply Forall_app. split; [exact Hfi|].
        inversion Hfl; subst. constructor; [assumption|constructor].
Qed.

Lemma paras_fold_ok (lines : list str) :
  forall paras,
    Forall (fun l => no_newline l = true) lines -> paras_ok paras ->
    paras_ok (fold_left para_step lines paras).
Proof.
  induction lines as [|l lines IH]; intros paras Hl Hp; [exact Hp|].
  inversion Hl; subst. cbn [fold_left]. apply IH; [assumption|].
  now apply para_step_ok.
Qed.

(** ** Joining the paragraphs *)

Lemma join_cons2 (sep x y : str) (l : list str) :
  join sep (x :: y :: l) = x ++ sep ++ join sep (y :: l).
Proof. reflexivity. Qed.

Lemma join_cons_head (sep : str) (c : ascii) (x : str) (l : list str) :
  join sep ((c :: x) :: l) = c :: join sep (x :: l).
Proof. destruct l; reflexivity. Qed.

Lemma join_flagged (rest : list (bool * str)) :
  forall x,
    Forall (fun p => fst p = true) rest ->
    join [newline] (x :: map decorate rest)
    = join [newline; newline] (x :: map snd rest).
Proof.
  induction rest as [|[b p] rest IH]; intros x H; [reflexivity|].
  inversion H as [|? ? Hb Hr]; subst. cbn [fst] in Hb. subst b.
  cbn [map]. rewrite !join_cons2. unfold decorate at 1. cbn [fst snd].
  rewrite join_cons_head, (IH p Hr). reflexivity.
Qed.

Lemma join_decorated (b : bool) (p : str) (rest : list (bool * str)) :
  Forall (fun q => fst q = true) rest ->
  join [newline] (map decorate ((b, p) :: rest))
  = (if b then [newline] else []) ++ join [newline; newline] (p :: map snd rest).
Proof.
  intros H. cbn [map]. unfold decorate at 1. cbn [fst snd].
  destruct b.
  - rewrite join_cons_head, (join_flagged p H). reflexivity.
  - now rewrite (join_flagged p H).
Qed.

Lemma squeeze_join (qs : list str) :
  forall q,
    squeeze (join [newline; newline] (q :: qs))
    = join [newline; newline] (squeeze q :: map squeeze qs).
Proof.
  induction qs as [|q2 qs IH]; intros q; [reflexivity|].
  cbn [map]. rewrite !join_cons2.
  rewrite squeeze_app by reflexivity.
  cbn [app]. rewrite !squeeze_solid by reflexivity. now rewrite IH.
Qed.

Lemma solid_ends_join (qs : list str) :
  forall q,
    solid_ends q -> Forall solid_ends qs ->
    solid_ends (join [newline; newline] (q :: qs)).
Proof.
  induction qs as [|q2 qs IH]; intros q Hq H; [exact Hq|].
  inversion H; subst. rewrite join_cons2. apply solid_ends_app; auto.
Qed.

Lemma para_lines_join (qs : list str) :
  forall q first,
    good_line first q -> Forall (good_line false) qs ->
    para_lines first (split newline (join [newline; newline] (q :: qs))) = true.
Proof.
  induction qs as [|q2 qs IH]; intros q first (N & S & M) H.
  - cbn [join]. rewrite (split_one_line q N). cbn [para_lines].
    rewrite (solid_ends_nonempty S). destruct first; [reflexivity|].
    now rewrite M.
  - inversion H as [|? ? H2 Hr]; subst. rewrite join_cons2.
    cbn [app]. rewrite (@split_at_newline q _ N).
    rewrite split_newline_head.
    cbn [para_lines nonempty negb andb].
    rewrite (solid_ends_nonempty S), (IH q2 false H2 Hr).
    destruct first; [reflexivity|]. now rewrite M.
Qed.

(** ** Squeezing a paragraph *)

Lemma squeeze_no_newline (s : str) :
  no_newline s = true -> no_newline (squeeze s) = true.
Proof.
  intros H. unfold no_newline in *. apply forallb_forall. intros c Hc.
  destruct (squeeze_chars s c Hc) as [->|Hin]; [reflexivity|].
  now apply (proj1 (forallb_forall _ _) H).
Qed.

Lemma squeeze_solid_ends (s : str) : solid_ends s -> solid_ends (squeeze s).
Proof.
  intros [(a & t & E & Ha) (t' & b & E' & Hb)]. split.
  - rewrite E. rewrite squeeze_solid by now apply solid_not_blank. eauto.
  - rewrite E'. rewrite squeeze_app by now apply solid_not_blank.
    rewrite (@squeeze_solid b []) by now apply solid_not_blank.
    exists (squeeze t'), b. split; [reflexivity|exact Hb].
Qed.

Lemma squeeze_starts_marker (s : str) :
  starts_marker s -> starts_marker (squeeze s).
Proof.
  intros (body & l & rest & -> & M).
  destruct (squeeze_marker rest M) as (body' & M' & ->).
  now exists body', l, (squeeze rest).
Qed.

Lemma good_line_squeeze (first : bool) (p : bool * str) :
  good_para p -> (first = false -> fst p = true) ->
  good_line first (squeeze (snd p)).
Proof.
  intros (N & S & M) F. split; [now apply squeeze_no_newline|].
  split; [now apply squeeze_solid_ends|].
  intros E. apply line_marker_iff, squeeze_starts_marker, M, F, E.
Qed.

Lemma good_line_solid (first : bool) (q : str) : good_line first q -> solid_ends q.
Proof. now intros (_ & S & _). Qed.

Lemma squeeze_idem_n (n : nat) :
  forall s, length s <= n -> squeeze (squeeze s) = squeeze s.
Proof.
  induction n as [|n IH]; intros s Hn.
  - destruct s; [reflexivity|simpl in Hn; lia].
  - destruct s as [|c s]; [reflexivity|].
    destruct (is_blank c) eqn:Ec.
    + destruct (span_split is_blank s) as (u & r & -> & Hu & Hr).
      rewrite (@squeeze_run c u r Ec Hu Hr).
      assert (Hlen : length r <= n).
      { simpl in Hn. rewrite length_app in Hn. lia. }
      destruct r as [|x r].
      * reflexivity.
      * rewrite (@squeeze_solid x r Hr).
        change (" " :: x :: squeeze r) with (" " :: [] ++ x :: squeeze r).
        rewrite (@squeeze_run " " [] (x :: squeeze r) eq_refl eq_refl Hr).
        rewrite <- (@squeeze_solid x r Hr). now rewrite (IH _ Hlen).
    + rewrite (@squeeze_solid c s Ec), (@squeeze_solid c (squeeze s) Ec).
      rewrite IH; [reflexivity|simpl in Hn; lia].
Qed.

Lemma squeeze_idem (s : str) : squeeze (squeeze s) = squeeze s.
Proof. now apply (@squeeze_idem_n (length s)). Qed.

(** The shape of a normalized text: paragraphs joined by an empty line, each
    with no newline, no white space at its ends and nothing left to squeeze;
    all but the first begin with a marker. *)
Lemma normalize_text_shape (raw_text : str) :
  normalize_text raw_text = []
  \/ exists q qs,
      normalize_text raw_text = join [newline; newline] (q :: qs)
      /\ good_line true q /\ Forall (good_line false) qs
      /\ Forall (fun x => squeeze x = x) (q :: qs).
Proof.
  unfold normalize_text. cbv zeta.
  set (lines := split newline (dehyphenate raw_text)).
  assert (Hl : Forall (fun l => no_newline l = true) lines)
    by apply split_lines_no_newline.
  change (fold_left rebuild_line lines [])
    with (fold_left rebuild_line lines (map decorate [])).
  rewrite rebuilt_decorate.
  assert (Hp : paras_ok (fold_left para_step lines [])).
  { apply paras_fold_ok; [exact Hl|]. split; constructor. }
  destruct (fold_left para_step lines []) as [|[b p] rest]; [now left|].
  right. destruct Hp as [Hg Hf]. cbn [tl] in Hf.
  inversion Hg as [|? ? Hg1 Hgr]; subst.
  rewrite (join_decorated b p Hf).
  fold (squeeze ((if b then [newline] else []) ++
                 join [newline; newline] (p :: map snd rest))).
  assert (Hq1 : good_line true (squeeze p)).
  { apply (@good_line_squeeze true (b, p)); [exact Hg1|discriminate]. }
  assert (Hqr : Forall (good_line false) (map squeeze (map snd rest))).
  { clear - Hgr Hf. induction rest as [|r rest IH]; [constructor|].
    inversion Hgr; inversion Hf; subst. cbn [map]. constructor; [|now apply IH].
    apply good_line_squeeze; auto. }
  assert (Hsq : squeeze ((if b then [newline] else []) ++
                         join [newline; newline] (p :: map snd rest))
                = (if b then [newline] else []) ++
                  join [newline; newline] (squeeze p :: map squeeze (map snd rest))).
  { destruct b; cbn [app]; [rewrite squeeze_solid by reflexivity|];
      now rewrite squeeze_join. }
  exists (squeeze p), (map squeeze (map snd rest)).
  split; [|split; [exact Hq1|split; [exact Hqr|]]].
  - rewrite Hsq. apply strip_of_solid; [now destruct b|].
    apply solid_ends_join; [now apply (good_line_solid Hq1)|].
    eapply Forall_impl; [|exact Hqr]. intros q. apply good_line_solid.
  - constructor; [apply squeeze_idem|].
    apply Forall_map. apply Forall_forall. intros x _. apply squeeze_idem.
Qed.

(** X12.  What [normalize_text] returns is empty, or its lines alternate
    between a paragraph and an empty line, beginning and ending with a
    paragraph: every paragraph is a non-empty line, and the pattern of line
    90 matches every paragraph but the first, which therefore begins with one
    of the four marker shapes. *)
Theorem normalize_text_paragraph_lines (raw_text : str) :
  normalize_text raw_text = []
  \/ para_lines true (split newline (normalize_text raw_text)) = true.
Proof.
  destruct (normalize_text_shape raw_text) as [E|(q & qs & E & Hq & Hqs & _)];
    [now left|right].
  rewrite E. now apply para_lines_join.
Qed.

(** ** Normalizing twice *)

Lemma has_break_paragraph (x y : str) :
  no_newline x = true -> has_break y = false ->
  has_break (x ++ newline :: newline :: y) = false.
Proof.
  intros Hx Hy. induction x as [|c x IH].
  - cbn [app has_break]. now rewrite Hy.
  - unfold no_newline in Hx. cbn [forallb] in Hx.
    apply andb_prop in Hx as [_ Hx]. specialize (IH Hx).
    change ((c :: x) ++ newline :: newline :: y)
      with (c :: x ++ newline :: newline :: y).
    cbn [has_break]. rewrite IH, orb_false_r.
    destruct x as [|a [|b x]].
    + cbn [app]. destruct (is_word c); [|reflexivity]. destruct y; reflexivity.
    + cbn [app]. destruct (is_word c); [|reflexivity].
      destruct (Ascii.eqb a "-"); reflexivity.
    + cbn [forallb] in Hx.
      apply andb_prop in Hx as [_ Hx]. apply andb_prop in Hx as [Hb _].
      apply negb_true_iff in Hb.
      destruct x; cbn [app]; rewrite Hb;
        destruct (is_word c), (Ascii.eqb a "-"); reflexivity.
Qed.

Lemma has_break_one_line (x : str) : no_newline x = true -> has_break x = false.
Proof.
  intros Hx. induction x as [|c x IH]; [reflexivity|].
  unfold no_newline in Hx. cbn [forallb] in Hx.
  apply andb_prop in Hx as [_ Hx]. cbn [has_break]. rewrite (IH Hx), orb_false_r.
  destruct x as [|a [|b [|d x]]]; try apply andb_false_r.
  cbn [forallb] in Hx.
  apply andb_prop in Hx as [_ Hx]. apply andb_prop in Hx as [Hb _].
  apply negb_true_iff in Hb. rewrite Hb.
  destruct (is_word c), (Ascii.eqb a "-"); reflexivity.
Qed.

Lemma has_break_join (qs : list str) :
  forall q,
    Forall (fun x => no_newline x = true) (q :: qs) ->
    has_break (join [newline; newline] (q :: qs)) = false.
Proof.
  induction qs as [|q2 qs IH]; intros q H; inversion H; subst.
  - now apply has_break_one_line.
  - rewrite join_cons2. cbn [app]. apply has_break_paragraph; auto.
Qed.

Lemma split_join (qs : list str) :
  forall q,
    Forall (fun x => no_newline x = true) (q :: qs) ->
    split newline (join [newline; newline] (q :: qs))
    = q :: flat_map (fun x => [[]; x]) qs.
Proof.
  induction qs as [|q2 qs IH]; intros q H; inversion H; subst.
  - now apply split_one_line.
  - rewrite join_cons2. cbn [app flat_map].
    rewrite split_at_newline by assumption.
    rewrite split_newline_head. now rewrite IH.
Qed.

Lemma para_step_empty (paras : list (bool * str)) : para_step paras [] = paras.
Proof. reflexivity. Qed.

Lemma para_step_marker (paras : list (bool * str)) (q : str) :
  solid_ends q -> re_match LINE_MARKER q = true ->
  para_step paras q = paras ++ [(true, q)].
Proof.
  intros S M. unfold para_step. cbv zeta.
  rewrite (strip_solid_id S), M.
  destruct S as [(a & t & -> & _) _]. reflexivity.
Qed.

Lemma para_step_first (q : str) :
  solid_ends q -> para_step [] q = [(re_match LINE_MARKER q, q)].
Proof.
  intros S. unfold para_step. cbv zeta.
  rewrite (strip_solid_id S).
  destruct S as [(a & t & -> & _) _].
  now destruct (re_match LINE_MARKER (a :: t)).
Qed.

Lemma paras_of_lines (qs : list str) :
  forall paras,
    Forall (good_line false) qs ->
    fold_left para_step (flat_map (fun x => [[]; x]) qs) paras
    = paras ++ map (fun q => (true, q)) qs.
Proof.
  induction qs as [|q qs IH]; intros paras H.
  - cbn. now rewrite app_nil_r.
  - inversion H as [|? ? (N & S & M) Hr]; subst.
    cbn [flat_map app fold_left map]. rewrite para_step_empty.
    rewrite (para_step_marker paras S (M eq_refl)), (IH _ Hr).
    now rewrite <- app_assoc.
Qed.

(** X13.  [normalize_text] is idempotent: normalizing a normalized text
    gives it back. *)
Theorem normalize_text_idempotent (raw_text : str) :
  normalize_text (normalize_text raw_text) = normalize_text raw_text.
Proof.
  destruct (normalize_text_shape raw_text)
    as [E|(q & qs & E & Hq & Hqs & Hs)]; rewrite E; [reflexivity|].
  assert (Hn : Forall (fun x => no_newline x = true) (q :: qs)).
  { constructor; [apply Hq|]. eapply Forall_impl; [|exact Hqs].
    now intros x (N & _). }
  unfold normalize_text. cbv zeta.
  rewrite (dehyphenate_unchanged _ (has_break_join Hn)).
  rewrite (split_join Hn). cbn [fold_left].
  change (@nil str) with (map decorate []) at 1.
  rewrite rebuild_decorate_step, rebuilt_decorate.
  rewrite (para_step_first (good_line_solid Hq)), (paras_of_lines _ Hqs).
  cbn [app]. rewrite join_decorated
    by (apply Forall_map, Forall_forall; now intros).
  rewrite map_map. cbn [snd]. rewrite map_id.
  fold (squeeze ((if re_match LINE_MARKER q then [newline] else []) ++
                 join [newline; newline] (q :: qs))).
  assert (Hj : squeeze (join [newline; newline] (q :: qs))
               = join [newline; newline] (q :: qs)).
  { rewrite squeeze_join. inversion Hs as [|? ? H1 H2]; subst. rewrite H1.
    f_equal. f_equal. clear - H2. induction H2; cbn [map]; congruence. }
  assert (Hsq : squeeze ((if re_match LINE_MARKER q then [newline] else []) ++
                         join [newline; newline] (q :: qs))
                = (if re_match LINE_MARKER q then [newline] else []) ++
                  join [newline; newline] (q :: qs)).
  { destruct (re_match LINE_MARKER q); cbn [app];
      [rewrite squeeze_solid by reflexivity|]; now rewrite Hj. }
  rewrite Hsq. apply strip_of_solid.
  - now destruct (re_match LINE_MARKER q).
  - apply solid_ends_join; [now apply (good_line_solid Hq)|].
    eapply Forall_impl; [|exact Hqs]. intros x. apply good_line_solid.
Qed.

(** ** The de-hyphenation in a text *)









(** ** A hyphen and a newline next to punctuation *)








(** ** A word through the rest of [normalize_text] *)























(** Two breaks in a row, and a break after another word: of the two in a row
    only the first is joined, since its right-hand word is used up; the break
    after another word is joined. *)
Lemma dehyphenate_chained_breaks :
  dehyphenate (L "a-" ++ newline :: L "b-" ++ newline :: L "c")
  = L "ab-" ++ newline :: L "c"
  /\ dehyphenate (L "a-" ++ newline :: L "b c-" ++ newline :: L "d") = L "ab cd"
  /\ dehyphenate (L "the consti-" ++ newline :: L "tution of")
     = L "the constitution of".
Proof. vm_compute. repeat split. Qed.

(** Scenario B needs the break to be the first one: behind a break that has
    just been joined the word is not put together. *)
Lemma scenario_B_after_a_break :
  contains (L "a-" ++ newline :: L "consti-" ++ newline :: L "tution")
           (L "consti-" ++ newline :: L "tution")
  /\ ~ contains (normalize_text
                   (L "a-" ++ newline :: L "consti-" ++ newline :: L "tution"))
                (L "constitution").
Proof.
  split.
  - exists (L "a-" ++ [newline]), []. reflexivity.
  - intros (x & y & E). vm_compute in E.
    do 4 (destruct x as [|? x]; [discriminate E|];
          cbn [app] in E; injection E as _ E).
    apply (f_equal (@length ascii)) in E. rewrite length_app in E.
    cbn [length app] in E. lia.
Qed.
